(** * RedFileSystem: the storage registry of [FileSystem.cpp]

    A shallow embedding of [RedFS::FileSystem] (src/FileSystem.cpp and
    src/FileSystem.h) and the properties of its acquisition protocol.

    The static members of the class become one record, [State]; every
    member function becomes a computation in a state monad over it.  The
    monad can fail: dereferencing the [logger] pointer while it is
    [nullptr] is undefined behaviour in C++, and is the only failure.

    What the class calls but does not define is kept apart:
    - [std::filesystem] is an interface ([StdFilesystem]); every theorem
      holds for every implementation of it.  The calls made through it are
      also recorded, in order, in [fs_calls].
    - [equals_insensitive] (Utils.h) and [FileSystemStorage]
      (FileSystemStorage.h) are modelled from the specification. *)

From Stdlib Require Import Ascii String List Bool Arith Lia.
From stdpp Require Import base option list strings gmap fin_maps.

Local Open Scope string_scope.
Local Open Scope list_scope.

(** ** Strings *)

Module Text.

Definition in_range (lo hi c : ascii) : bool :=
  (nat_of_ascii lo <=? nat_of_ascii c)%nat && (nat_of_ascii c <=? nat_of_ascii hi)%nat.

(** [tolower] of the C locale: only 'A'..'Z' move. *)
Definition tolower (c : ascii) : ascii :=
  if in_range "A" "Z" c then ascii_of_nat (nat_of_ascii c + 32) else c.

(** Modelled from the spec: [equals_insensitive] of Utils.h, which is not
    among the sources.  The specification says names are compared
    case-insensitively: two strings are equal when they have the same length
    and agree character by character after folding ASCII letters to lower
    case. *)
Fixpoint equals_insensitive (a b : string) : bool :=
  match a, b with
  | EmptyString, EmptyString => true
  | String x a', String y b' =>
      Ascii.eqb (tolower x) (tolower y) && equals_insensitive a' b'
  | _, _ => false
  end.

Fixpoint all_chars (p : ascii -> bool) (s : string) : bool :=
  match s with
  | EmptyString => true
  | String c s' => p c && all_chars p s'
  end.

End Text.

(** ** The one regular expression of the class *)

Module Regex.

(** [std::regex] restricted to the shape the source uses: a bracket
    expression of character ranges under a bounded repetition,
    [[r1r2...]{lo,hi}]. *)
Record regex := Repeat {
  ranges : list (ascii * ascii);
  at_least : nat;
  at_most : nat
}.

Definition in_class (cls : list (ascii * ascii)) (c : ascii) : bool :=
  existsb (fun r => Text.in_range (fst r) (snd r) c) cls.

(** [std::regex_match]: the whole string has to match. *)
Definition regex_match (s : string) (r : regex) : bool :=
  (at_least r <=? String.length s)%nat
  && (String.length s <=? at_most r)%nat
  && Text.all_chars (in_class (ranges r)) s.

End Regex.

(** ** Paths *)

Module Path.

(** A [std::filesystem::path] as its sequence of components. *)
Definition path := list string.

(** [operator/] with a single component on the right. *)
Definition append (p : path) (c : string) : path := (p ++ [c])%list.

(** [path::parent_path]: the path without its last component. *)
Definition parent_path (p : path) : path := removelast p.

(** [q] is [p] or lies below it. *)
Definition is_prefix (p q : path) : bool :=
  bool_decide (p = take (length p) q).

End Path.

Notation "p // c" := (Path.append p c) (at level 40, left associativity).

(** ** The standard library's filesystem, as an interface *)

Module Fs.

Import Path.

(** The two bits of [std::filesystem::copy_options] the source sets; a
    value of the bitmask type is the list of its set bits. *)
Inductive copy_option := overwrite_existing | recursive.
Definition copy_options := list copy_option.

Definition has_option (o : copy_option) (options : copy_options) : bool :=
  existsb (fun x => match x, o with
                    | overwrite_existing, overwrite_existing => true
                    | recursive, recursive => true
                    | _, _ => false
                    end) options.

(** [std::error_code]: [None] when cleared, [Some e] when set. *)
Definition error_code := option nat.

Definition is_set (e : error_code) : bool :=
  match e with Some _ => true | None => false end.

(** The calls the source makes into [std::filesystem]. *)
Inductive call :=
| Exists (p : path)
| CreateDirectory (p : path)
| Copy (from to : path) (options : copy_options)
| RemoveAll (p : path).

(** Of these, only [remove_all] deletes anything: [p] and what is below it. *)
Definition deletes (c : call) (q : path) : bool :=
  match c with
  | RemoveAll p => is_prefix p q
  | _ => false
  end.

(** None of the calls [cs] deletes anything. *)
Definition no_removal (cs : list call) : Prop :=
  forall c q, c ∈ cs -> deletes c q = false.

(** The non-throwing overloads the source uses.  Every call may change the
    state of the implementation, so that failures can be transient. *)
Class StdFilesystem (FS : Type) := {
  absolute : path -> FS -> path;
  exists_ : path -> FS -> FS * (bool * error_code);
  create_directory : path -> FS -> FS * (bool * error_code);
  copy : path -> path -> copy_options -> FS -> FS * error_code;
  remove_all : path -> FS -> FS * error_code
}.

End Fs.

(** ** Storage objects *)

Module Storage.

(** Modelled from the spec: [FileSystemStorage] of FileSystemStorage.h,
    which is not among the sources.  A handle owns a name and a directory
    path and is either active or revoked; construction binds the name and
    the path and yields an active handle. *)
Record FileSystemStorage := Make {
  name : string;
  path : Path.path;
  revoked : bool
}.

Definition make (p_name : string) (p_path : Path.path) : FileSystemStorage :=
  {| name := p_name; path := p_path; revoked := false |}.

(** Modelled from the spec: [FileSystemStorage::revoke_permission], which
    idempotently moves the handle to the revoked state and changes nothing
    else. *)
Definition revoke_permission (st : FileSystemStorage) : FileSystemStorage :=
  {| name := name st; path := path st; revoked := true |}.

End Storage.

(** ** The host's logger *)

Module Log.

Inductive level := Info | Warn | Error.

(** The format strings of the source, each with its arguments. *)
Inductive message :=
| FailedCreateDirectoryAt (p : Path.path)
    (* Failed to create directory at "%s". *)
| HasBeenDisabled
    (* RedFileSystem has been disabled. *)
| FailedMigrate (old_path new_path : Path.path)
    (* Failed to migrate directory from "%s" to "%s". *)
| MoveContentYourself
    (* You need to manually move content yourself. *)
| HasBeenEnabled
    (* RedFileSystem has been enabled. *)
| HasBeenTerminated
    (* RedFileSystem has been terminated. *)
| DisabledForAllMods
    (* RedFileSystem is disabled for all mods. *)
| NameNotAllowed (name : string)
    (* Name of storage "%s" is not allowed. *)
| SeeDocumentation
    (* See the documentation to fix this issue. *)
| SeveralTimes (name : string)
    (* Attempt to access storage "%s" several times. Only one mod can access
       its own storage with RedFileSystem. Access to this storage has been
       permanently revoked for this session. *)
| FailedCreateStorage (name : string)
    (* Failed to create storage "%s". *)
| AccessGranted (name : string)
    (* Access to storage "%s" has been granted. *)
| Disabled
    (* RedFileSystem is disabled. *)
| SharedGranted
    (* Access to shared storage has been granted. *)
| FailedCreateShared
    (* Failed to create shared storage. *)
| CouldNotMigrate (e : nat)
    (* Could not migrate "storages" due to: %s. *).

End Log.

(** ** A state monad that can hit undefined behaviour *)

Module Monad.

Definition M (S A : Type) : Type := S -> option (A * S).

Definition ret {S A} (a : A) : M S A := fun s => Some (a, s).

Definition bind {S A B} (c : M S A) (k : A -> M S B) : M S B :=
  fun s => match c s with
           | Some (a, s') => k a s'
           | None => None
           end.

(** Undefined behaviour: nothing is known of what follows. *)
Definition undefined {S A} : M S A := fun _ => None.

Definition get {S A} (f : S -> A) : M S A := fun s => Some (f s, s).

Definition modify {S} (f : S -> S) : M S unit := fun s => Some (tt, f s).

End Monad.

Notation "'let*' x := c 'in' k" := (Monad.bind c (fun x => k))
  (at level 10, x pattern, c at level 100, k at level 200).
Notation "c ;; k" := (Monad.bind c (fun _ => k))
  (at level 100, k at level 200, right associativity).

(** ** The class [RedFS::FileSystem] *)

Module FileSystem.

Import Path Monad.

(** [RED4ext::PluginHandle] and the target of [RED4ext::Logger*] are the
    host's; only their identity matters here.  A pointer is an [option],
    [None] for [nullptr]. *)
Abbreviation PluginHandle := nat.
Abbreviation Logger := nat.

(** A [Red::Handle<FileSystemStorage>] that is not null is the address of
    the object it shares; a null handle is [None]. *)
Abbreviation Handle := nat.

(** [StorageMap]: [std::unordered_map<std::string, Red::Handle<...>>]. *)
Abbreviation StorageMap := (gmap string Handle).

Definition log_entry : Type := Log.level * option PluginHandle * Log.message.

Section WithFilesystem.

Context {FS : Type} {std_fs : Fs.StdFilesystem FS}.

(** The static data members, the storage objects the handles point to, and
    the world outside: the filesystem, the calls made into it, and what the
    logger was given. *)
Record State := MkState {
  handle : option PluginHandle;
  logger : option Logger;
  game_path : path;
  storages_path : path;
  storages : StorageMap;
  has_error : bool;
  objects : list Storage.FileSystemStorage;
  fs : FS;
  fs_calls : list Fs.call;
  log : list log_entry
}.

Definition set_handle (v : option PluginHandle) (s : State) : State :=
  MkState v (logger s) (game_path s) (storages_path s) (storages s)
    (has_error s) (objects s) (fs s) (fs_calls s) (log s).
Definition set_logger (v : option Logger) (s : State) : State :=
  MkState (handle s) v (game_path s) (storages_path s) (storages s)
    (has_error s) (objects s) (fs s) (fs_calls s) (log s).
Definition set_game_path (v : path) (s : State) : State :=
  MkState (handle s) (logger s) v (storages_path s) (storages s)
    (has_error s) (objects s) (fs s) (fs_calls s) (log s).
Definition set_storages_path (v : path) (s : State) : State :=
  MkState (handle s) (logger s) (game_path s) v (storages s)
    (has_error s) (objects s) (fs s) (fs_calls s) (log s).
Definition set_storages (v : StorageMap) (s : State) : State :=
  MkState (handle s) (logger s) (game_path s) (storages_path s) v
    (has_error s) (objects s) (fs s) (fs_calls s) (log s).
Definition set_has_error (v : bool) (s : State) : State :=
  MkState (handle s) (logger s) (game_path s) (storages_path s) (storages s)
    v (objects s) (fs s) (fs_calls s) (log s).
Definition set_objects (v : list Storage.FileSystemStorage) (s : State) : State :=
  MkState (handle s) (logger s) (game_path s) (storages_path s) (storages s)
    (has_error s) v (fs s) (fs_calls s) (log s).
Definition set_fs (v : FS) (c : Fs.call) (s : State) : State :=
  MkState (handle s) (logger s) (game_path s) (storages_path s) (storages s)
    (has_error s) (objects s) v (fs_calls s ++ [c]) (log s).
Definition add_log (e : log_entry) (s : State) : State :=
  MkState (handle s) (logger s) (game_path s) (storages_path s) (storages s)
    (has_error s) (objects s) (fs s) (fs_calls s) (log s ++ [e]).

(** The definitions at namespace scope: every pointer null, every path
    empty, no storage, [has_error = true]. *)
Definition initial (world : FS) : State :=
  MkState None None [] [] ∅ true [] world [] [].

(** *** What the members are built from *)

(** [logger->Error(handle, ...)] and its siblings.  The call goes through
    the [logger] pointer: with [logger == nullptr] it is undefined. *)
Definition logger_write (lvl : Log.level) (msg : Log.message) : M State unit :=
  fun s =>
    match logger s with
    | Some _ => Some (tt, add_log (lvl, handle s, msg) s)
    | None => None
    end.

Definition fs_exists (p : path) : M State (bool * Fs.error_code) :=
  fun s => let '(w, r) := Fs.exists_ p (fs s) in Some (r, set_fs w (Fs.Exists p) s).

Definition fs_create_directory (p : path) : M State (bool * Fs.error_code) :=
  fun s => let '(w, r) := Fs.create_directory p (fs s) in
           Some (r, set_fs w (Fs.CreateDirectory p) s).

Definition fs_copy (from to : path) (options : Fs.copy_options)
  : M State Fs.error_code :=
  fun s => let '(w, r) := Fs.copy from to options (fs s) in
           Some (r, set_fs w (Fs.Copy from to options) s).

Definition fs_remove_all (p : path) : M State Fs.error_code :=
  fun s => let '(w, r) := Fs.remove_all p (fs s) in
           Some (r, set_fs w (Fs.RemoveAll p) s).

(** [Red::MakeHandle<FileSystemStorage>(name, path)]: a new object, at a
    fresh address. *)
Definition make_handle (name : string) (p : path) : M State Handle :=
  fun s => Some (length (objects s),
                 set_objects (objects s ++ [Storage.make name p]) s).

(** [storage->revoke_permission()] through a handle that is not null. *)
Definition revoke_permission (h : Handle) : M State unit :=
  modify (fun s => set_objects (alter Storage.revoke_permission h (objects s)) s).

(** [storages[name] = storage]. *)
Definition storages_assign (name : string) (h : Handle) : M State unit :=
  modify (fun s => set_storages (<[name := h]> (storages s)) s).

(** *** The static members *)

Definition storage_name_rule : Regex.regex :=
  Regex.Repeat [("A"%char, "Z"%char); ("a"%char, "z"%char)] 3 24.

(** [find_storage]: the first entry, in the iteration order of the map,
    whose key equals [p_name] up to case. *)
Definition find_in (m : StorageMap) (p_name : string) : option Handle :=
  snd <$> List.find (fun storage => Text.equals_insensitive (fst storage) p_name)
            (map_to_list m).

Definition find_storage (p_name : string) : M State (option Handle) :=
  get (fun s => find_in (storages s) p_name).

Definition request_directory (p_path : path) : M State bool :=
  let* (is_present, error) := fs_exists p_path in
  if Fs.is_set error then ret false
  else if is_present then ret true
  else
    let* (is_present, error) := fs_create_directory p_path in
    if negb is_present || Fs.is_set error then ret false
    else ret true.

Definition migrate_directory (p_old_path p_new_path : path) : M State bool :=
  let* (has_old_path, error) := fs_exists p_old_path in
  if Fs.is_set error then ret false
  else if negb has_old_path then ret true
  else
    let options := [Fs.overwrite_existing; Fs.recursive] in
    let* error := fs_copy p_old_path p_new_path options in
    match error with
    | Some e => logger_write Log.Error (Log.CouldNotMigrate e);; ret false
    | None => ret true
    end.

Definition old_path_of (game : path) : path :=
  game // "red4ext" // "plugins" // "RedFileSystem" // "storages".

Definition load (p_handle : option PluginHandle) (p_logger : option Logger)
  : M State unit :=
  modify (set_handle p_handle);;
  modify (set_logger p_logger);;
  let* path := get (fun s => Fs.absolute ["."] (fs s)) in
  modify (set_game_path (parent_path (parent_path path)));;
  let* game := get game_path in
  modify (set_storages_path (game // "r6" // "storages"));;
  let* root := get storages_path in
  let* is_present := request_directory root in
  if negb is_present then
    modify (set_has_error true);;
    logger_write Log.Error (Log.FailedCreateDirectoryAt root);;
    logger_write Log.Error Log.HasBeenDisabled
  else
    let* game := get game_path in
    let old_path := old_path_of game in
    let* migrated := migrate_directory old_path root in
    if negb migrated then
      modify (set_has_error true);;
      logger_write Log.Warn (Log.FailedMigrate old_path root);;
      logger_write Log.Warn Log.MoveContentYourself
    else
      modify (set_has_error false);;
      logger_write Log.Info Log.HasBeenEnabled.

Definition unload : M State unit :=
  let* game := get game_path in
  let old_path := old_path_of game in
  let* _ := fs_remove_all old_path in
  modify (set_storages ∅);;
  modify (set_has_error true);;
  logger_write Log.Info Log.HasBeenTerminated;;
  modify (set_handle None);;
  modify (set_logger None).

Definition get_storage (p_name : string) : M State (option Handle) :=
  let* disabled := get has_error in
  if disabled then
    logger_write Log.Error Log.DisabledForAllMods;;
    ret None
  else
    let name := p_name in
    if negb (Regex.regex_match name storage_name_rule)
       || Text.equals_insensitive name "shared"
    then
      logger_write Log.Error (Log.NameNotAllowed name);;
      logger_write Log.Error Log.SeeDocumentation;;
      ret None
    else
      let* storage := find_storage name in
      match storage with
      | Some found =>
          revoke_permission found;;
          logger_write Log.Error (Log.SeveralTimes name);;
          ret None
      | None =>
          let* root := get storages_path in
          let path := root // name in
          let* is_present := request_directory path in
          if negb is_present then
            logger_write Log.Error (Log.FailedCreateStorage name);;
            ret None
          else
            let* storage := make_handle name path in
            storages_assign name storage;;
            logger_write Log.Info (Log.AccessGranted name);;
            ret (Some storage)
      end.

Definition get_shared_storage : M State (option Handle) :=
  let* disabled := get has_error in
  if disabled then
    logger_write Log.Error Log.Disabled;;
    ret None
  else
    let name := "shared" in
    let* storage := find_storage name in
    match storage with
    | Some found =>
        logger_write Log.Info Log.SharedGranted;;
        ret (Some found)
    | None =>
        let* root := get storages_path in
        let path := root // name in
        let* is_present := request_directory path in
        if negb is_present then
          logger_write Log.Error Log.FailedCreateShared;;
          ret None
        else
          let* storage := make_handle name path in
          storages_assign name storage;;
          logger_write Log.Info Log.SharedGranted;;
          ret (Some storage)
    end.


(** *** Vocabulary for the properties *)

(** The test that guards the lookup in [get_storage], the other way round:
    a name that passes goes on to [find_storage]. *)
Definition accepted (name : string) : bool :=
  Regex.regex_match name storage_name_rule
  && negb (Text.equals_insensitive name "shared").

(** The naming rule in the words of the specification: 3 to 24 characters,
    each an ASCII letter (codes 65..90 and 97..122). *)
Definition ascii_letter (c : ascii) : bool :=
  let n := nat_of_ascii c in
  ((65 <=? n)%nat && (n <=? 90)%nat) || ((97 <=? n)%nat && (n <=? 122)%nat).

Definition letters_3_to_24 (name : string) : bool :=
  (3 <=? String.length name)%nat && (String.length name <=? 24)%nat
  && forallb ascii_letter (list_ascii_of_string name).

(** No two keys of the map are equal up to case. *)
Definition case_distinct (m : StorageMap) : Prop :=
  forall k1 k2, is_Some (m !! k1) -> is_Some (m !! k2) ->
    Text.equals_insensitive k1 k2 = true -> k1 = k2.

(** The state of the object behind a handle. *)
Definition is_revoked (s : State) (h : Handle) : Prop :=
  Storage.revoked <$> objects s !! h = Some true.

Definition is_active (s : State) (h : Handle) : Prop :=
  Storage.revoked <$> objects s !! h = Some false.

(** The objects only grow in number, and each keeps its name and path; a
    revoked one stays revoked. *)
Definition objects_evolve (s s' : State) : Prop :=
  forall h o, objects s !! h = Some o ->
    exists o', objects s' !! h = Some o'
      /\ Storage.name o' = Storage.name o /\ Storage.path o' = Storage.path o
      /\ (Storage.revoked o = true -> Storage.revoked o' = true).

(** The map is as before, or has one new entry under a name the lookup did
    not find. *)
Definition storages_evolve (name : string) (s s' : State) : Prop :=
  storages s' = storages s
  \/ (find_in (storages s) name = None
      /\ storages s' = <[name := length (objects s)]> (storages s)
      /\ objects s'
         = objects s ++ [Storage.make name (storages_path s // name)]).

(** What an acquisition leaves alone. *)
Definition statics_kept (s s' : State) : Prop :=
  handle s' = handle s /\ logger s' = logger s /\ has_error s' = has_error s
  /\ game_path s' = game_path s /\ storages_path s' = storages_path s.

(** The state [s] with another filesystem, reached by the calls [cs]. *)
Definition with_world (w : FS) (cs : list Fs.call) (s : State) : State :=
  MkState (handle s) (logger s) (game_path s) (storages_path s) (storages s)
    (has_error s) (objects s) w (fs_calls s ++ cs) (log s).

(** What every reachable state satisfies: keys distinct up to case; an
    object behind every handle of the map; a logger behind every enabled
    registry; the storages directory where [load] puts it. *)
Definition sound (s : State) : Prop :=
  case_distinct (storages s)
  /\ (forall (k : string) (h : Handle),
        storages s !! k = Some h -> is_Some (objects s !! h))
  /\ (has_error s = false -> is_Some (logger s))
  /\ (is_Some (logger s) -> storages_path s = game_path s // "r6" // "storages").

(** What every reachable state satisfies beyond [sound]: behind every
    entry of the map is an object that carries the key as its name and is
    bound to a directory called like the key; every key passed the test of
    [get_storage] or is the literal key of [get_shared_storage]; the object
    registered under that literal key is active. *)
Definition entries_bound (s : State) : Prop :=
  (forall (k : string) (h : Handle),
     storages s !! k = Some h ->
     exists o, objects s !! h = Some o
       /\ Storage.name o = k /\ last (Storage.path o) = Some k)
  /\ (forall k : string,
        is_Some (storages s !! k) -> accepted k = true \/ k = "shared")
  /\ (forall h : Handle, storages s !! "shared" = Some h -> is_active s h).

(** Every entry of the map points to an object bound to the directory of
    its key below the present [storages_path]. *)
Definition bound_below_storages (s : State) : Prop :=
  forall (k : string) (h : Handle),
    storages s !! k = Some h ->
    exists o, objects s !! h = Some o
      /\ Storage.path o = storages_path s // k.

(** *** Sessions: the four entry points, called in any order *)

Inductive request :=
| Load (p_handle : option PluginHandle) (p_logger : option Logger)
| Unload
| GetStorage (p_name : string)
| GetSharedStorage.

Definition perform (r : request) : M State unit :=
  match r with
  | Load p_handle p_logger => load p_handle p_logger
  | Unload => unload
  | GetStorage p_name => let* _ := get_storage p_name in ret tt
  | GetSharedStorage => let* _ := get_shared_storage in ret tt
  end.

Fixpoint perform_all (rs : list request) : M State unit :=
  match rs with
  | [] => ret tt
  | r :: rs' => perform r;; perform_all rs'
  end.

(** The requests a client module can make. *)
Definition is_acquisition (r : request) : bool :=
  match r with
  | GetStorage _ | GetSharedStorage => true
  | Load _ _ | Unload => false
  end.

(** [get_shared_storage] called [n] times in a row, with what each call
    returned. *)
Fixpoint get_shared_storage_times (n : nat) : M State (list (option Handle)) :=
  match n with
  | O => ret []
  | S n' =>
      let* h := get_shared_storage in
      let* hs := get_shared_storage_times n' in
      ret (h :: hs)
  end.

End WithFilesystem.

Arguments State FS : clear implicits.

End FileSystem.

(** ** A small filesystem to run the class on

    One implementation of the interface, used for the examples: a table of
    directories and files, a working directory, and a list of paths at which
    the next [create_directory] fails once (a transient fault). *)

Module Sim.

Import Path.

Inductive node := Dir | File (content : string).

Record disk := Disk {
  entries : list (path * node);
  cwd : path;
  faults : list path
}.

Definition same (p q : path) : bool := bool_decide (p = q).

Definition lookup (p : path) (es : list (path * node)) : option node :=
  match p with
  | [] => Some Dir
  | _ => snd <$> List.find (fun e => same (fst e) p) es
  end.

Definition write (p : path) (n : node) (es : list (path * node))
  : list (path * node) :=
  (p, n) :: List.filter (fun e => negb (same (fst e) p)) es.

Definition absolute (p : path) (d : disk) : path :=
  (cwd d ++ List.filter (fun c => negb (String.eqb c ".")) p)%list.

Definition exists_ (p : path) (d : disk) : disk * (bool * Fs.error_code) :=
  (d, (bool_decide (is_Some (lookup p (entries d))), None)).

Definition create_directory (p : path) (d : disk)
  : disk * (bool * Fs.error_code) :=
  if existsb (same p) (faults d) then
    (Disk (entries d) (cwd d) (List.filter (fun q => negb (same p q)) (faults d)),
     (false, Some 5))
  else
    match lookup p (entries d), lookup (parent_path p) (entries d) with
    | Some Dir, _ => (d, (false, None))
    | Some (File _), _ => (d, (false, Some 17))
    | None, Some Dir =>
        (Disk (write p Dir (entries d)) (cwd d) (faults d), (true, None))
    | None, _ => (d, (false, Some 2))
    end.

(** The entries below [from], re-rooted at [to]. *)
Definition moved (from to : path) (es : list (path * node))
  : list (path * node) :=
  omap (fun e => if is_prefix from (fst e) && negb (same from (fst e))
                 then Some ((to ++ drop (length from) (fst e))%list, snd e)
                 else None) es.

Definition copy (from to : path) (options : Fs.copy_options) (d : disk)
  : disk * Fs.error_code :=
  match lookup from (entries d), lookup to (entries d) with
  | None, _ => (d, Some 2)
  | Some Dir, Some (File _) => (d, Some 20)
  | Some Dir, _ =>
      if Fs.has_option Fs.recursive options
         && Fs.has_option Fs.overwrite_existing options then
        (Disk (foldr (fun e acc => write (fst e) (snd e) acc)
                 (write to Dir (entries d)) (moved from to (entries d)))
           (cwd d) (faults d), None)
      else (d, Some 95)
  | Some (File c), Some Dir => (d, Some 21)
  | Some (File c), _ =>
      (Disk (write to (File c) (entries d)) (cwd d) (faults d), None)
  end.

Definition remove_all (p : path) (d : disk) : disk * Fs.error_code :=
  (Disk (List.filter (fun e => negb (is_prefix p (fst e))) (entries d))
     (cwd d) (faults d), None).

#[global] Instance std_fs : Fs.StdFilesystem disk := {|
  Fs.absolute := absolute;
  Fs.exists_ := exists_;
  Fs.create_directory := create_directory;
  Fs.copy := copy;
  Fs.remove_all := remove_all
|}.

(** The game runs from [<game>/bin/x64]; [<game>/r6] exists. *)
Definition game : path := ["game"].

Definition fresh_disk : disk :=
  Disk [ (game, Dir); (game // "r6", Dir) ] (game // "bin" // "x64") [].

(** The same, with [storages] present and a transient fault waiting at the
    directory of the storage [mymod]. *)
Definition flaky_disk : disk :=
  Disk [ (game, Dir); (game // "r6", Dir); (game // "r6" // "storages", Dir) ]
    (game // "bin" // "x64") [ game // "r6" // "storages" // "mymod" ].

(** [<game>/r6] is a file: [storages] cannot be created below it. *)
Definition blocked_disk : disk :=
  Disk [ (game, Dir); (game // "r6", File "") ] (game // "bin" // "x64") [].

(** A legacy directory holding [a.txt]. *)
Definition legacy_disk : disk :=
  Disk [ (game, Dir); (game // "r6", Dir);
         (game // "red4ext", Dir); (game // "red4ext" // "plugins", Dir);
         (game // "red4ext" // "plugins" // "RedFileSystem", Dir);
         (FileSystem.old_path_of game, Dir);
         (FileSystem.old_path_of game // "a.txt", File "hello") ]
    (game // "bin" // "x64") [].

(** The state a list of requests leads to from namespace scope, when none
    of them hits undefined behaviour. *)
Definition after (rs : list FileSystem.request) (d : disk)
  : FileSystem.State disk :=
  match FileSystem.perform_all rs (FileSystem.initial d) with
  | Some (_, s) => s
  | None => FileSystem.initial d
  end.

Definition plugin : option FileSystem.PluginHandle := Some 1.
Definition sink : option FileSystem.Logger := Some 2.

(** Loaded, nothing acquired yet. *)
Definition enabled : FileSystem.State disk :=
  Eval vm_compute in after [FileSystem.Load plugin sink] fresh_disk.

(** Loaded on the disk where [storages] cannot be created. *)
Definition blocked : FileSystem.State disk :=
  Eval vm_compute in after [FileSystem.Load plugin sink] blocked_disk.

(** Loaded on the disk with the transient fault. *)
Definition flaky : FileSystem.State disk :=
  Eval vm_compute in after [FileSystem.Load plugin sink] flaky_disk.

(** Loaded on a disk with a transient fault at the shared directory. *)
Definition shared_flaky : FileSystem.State disk :=
  Eval vm_compute in
    after [FileSystem.Load plugin sink]
      (Disk (entries flaky_disk) (cwd flaky_disk)
         [ game // "r6" // "storages" // "shared" ]).

(** Loaded, the shared storage acquired once. *)
Definition shared_acquired : FileSystem.State disk :=
  Eval vm_compute in
    after [FileSystem.Load plugin sink; FileSystem.GetSharedStorage] fresh_disk.

(** Loaded, the storage [mymod] acquired once. *)
Definition mymod_acquired : FileSystem.State disk :=
  Eval vm_compute in
    after [FileSystem.Load plugin sink; FileSystem.GetStorage "mymod"]
      fresh_disk.

End Sim.

(** * Properties *)

(** ** Comparing names *)

Module TextFacts.

Import Text.

Local Abbreviation letters_AZ_az := (Regex.ranges FileSystem.storage_name_rule).

Lemma equals_insensitive_refl (a : string) : equals_insensitive a a = true.
Proof.
  induction a as [|x a IH]; simpl; [reflexivity|].
  rewrite Ascii.eqb_refl. exact IH.
Qed.

Lemma equals_insensitive_sym (a b : string) :
  equals_insensitive a b = equals_insensitive b a.
Proof.
  revert b. induction a as [|x a IH]; intros [|y b]; simpl; try reflexivity.
  rewrite (Ascii.eqb_sym (tolower x)). f_equal. apply IH.
Qed.

Lemma equals_insensitive_trans (a b c : string) :
  equals_insensitive a b = true -> equals_insensitive b c = true ->
  equals_insensitive a c = true.
Proof.
  revert b c. induction a as [|x a IH]; intros [|y b] [|z c]; simpl;
    try discriminate; try reflexivity.
  intros [Hxy Hab]%andb_prop [Hyz Hbc]%andb_prop.
  apply Ascii.eqb_eq in Hxy, Hyz. rewrite Hxy, Hyz, Ascii.eqb_refl. simpl.
  eauto.
Qed.

(** Two names equal up to case are interchangeable on either side of a
    comparison. *)
Lemma equals_insensitive_congr (a b c : string) :
  equals_insensitive a b = true ->
  equals_insensitive a c = equals_insensitive b c.
Proof.
  intros Hab.
  destruct (equals_insensitive b c) eqn:Hbc.
  - eapply equals_insensitive_trans; eassumption.
  - destruct (equals_insensitive a c) eqn:Hac; [|reflexivity].
    rewrite <- Hbc. symmetry. eapply equals_insensitive_trans; [|exact Hac].
    rewrite equals_insensitive_sym. exact Hab.
Qed.

Lemma equals_insensitive_length (a b : string) :
  equals_insensitive a b = true -> String.length a = String.length b.
Proof.
  revert b. induction a as [|x a IH]; intros [|y b]; simpl;
    try discriminate; try reflexivity.
  intros [_ Hab]%andb_prop. f_equal. auto.
Qed.

(** A character is a letter exactly when folding it gives 'a'..'z'. *)
Lemma letter_tolower (c : ascii) :
  Regex.in_class letters_AZ_az c = in_range "a" "z" (tolower c).
Proof.
  destruct c as [[] [] [] [] [] [] [] []]; vm_compute; reflexivity.
Qed.

Lemma equals_insensitive_letters (a b : string) :
  equals_insensitive a b = true ->
  all_chars (Regex.in_class letters_AZ_az) a = all_chars (Regex.in_class letters_AZ_az) b.
Proof.
  revert b.
  induction a as [|x a IH]; intros [|y b]; cbn [all_chars equals_insensitive];
    try discriminate; try reflexivity.
  intros [Hxy Hab]%andb_prop. apply Ascii.eqb_eq in Hxy.
  rewrite !letter_tolower, Hxy. f_equal. auto.
Qed.

End TextFacts.

(** ** The naming rule *)

Module NameFacts.

Import Text TextFacts FileSystem.

Lemma ascii_letter_in_class (c : ascii) :
  Regex.in_class (Regex.ranges storage_name_rule) c = ascii_letter c.
Proof.
  destruct c as [[] [] [] [] [] [] [] []]; vm_compute; reflexivity.
Qed.

Lemma all_chars_forallb (p q : ascii -> bool) (s : string) :
  (forall c, p c = q c) ->
  all_chars p s = forallb q (list_ascii_of_string s).
Proof.
  intros Hpq. induction s as [|c s IH]; simpl; [reflexivity|].
  rewrite Hpq, IH. reflexivity.
Qed.

(** The regular expression of the source says what the specification says. *)
Lemma regex_match_letters_3_to_24 (name : string) :
  Regex.regex_match name storage_name_rule = letters_3_to_24 name.
Proof.
  unfold Regex.regex_match, letters_3_to_24.
  rewrite (all_chars_forallb _ ascii_letter) by apply ascii_letter_in_class.
  reflexivity.
Qed.

Lemma regex_match_congr (a b : string) :
  equals_insensitive a b = true ->
  Regex.regex_match a storage_name_rule = Regex.regex_match b storage_name_rule.
Proof.
  intros Hab. unfold Regex.regex_match.
  rewrite (equals_insensitive_length a b Hab).
  rewrite (equals_insensitive_letters a b Hab). reflexivity.
Qed.

(** A name and its case variants pass or fail the test together. *)
Lemma accepted_congr (a b : string) :
  equals_insensitive a b = true -> accepted a = accepted b.
Proof.
  intros Hab. unfold accepted.
  rewrite (regex_match_congr a b Hab).
  rewrite (equals_insensitive_congr a b "shared" Hab). reflexivity.
Qed.

Lemma accepted_not_shared (name : string) :
  accepted name = true -> equals_insensitive name "shared" = false.
Proof.
  unfold accepted. intros [_ H]%andb_prop. apply negb_true_iff in H. exact H.
Qed.

Lemma not_accepted_shared (name : string) :
  equals_insensitive name "shared" = true -> accepted name = false.
Proof.
  unfold accepted. intros ->. apply andb_false_r.
Qed.

End NameFacts.

(** ** Looking a name up *)

Module FindFacts.

Import Text TextFacts FileSystem.

Lemma find_in_Some (m : StorageMap) (n : string) (h : Handle) :
  find_in m n = Some h ->
  exists k, m !! k = Some h /\ equals_insensitive k n = true.
Proof.
  unfold find_in. intros H.
  destruct (List.find _ (map_to_list m)) as [[k h']|] eqn:Hfind;
    simpl in H; [|discriminate].
  injection H as ->.
  apply find_some in Hfind as [Hin Heq].
  exists k. split; [|exact Heq].
  apply elem_of_map_to_list, list_elem_of_In, Hin.
Qed.

Lemma find_in_None (m : StorageMap) (n : string) :
  find_in m n = None ->
  forall k, is_Some (m !! k) -> equals_insensitive k n = false.
Proof.
  unfold find_in. intros H k [h Hk].
  destruct (List.find _ (map_to_list m)) as [[k' h']|] eqn:Hfind;
    simpl in H; [discriminate|].
  apply (find_none _ _ Hfind (k, h)).
  apply list_elem_of_In, elem_of_map_to_list, Hk.
Qed.

Lemma find_in_is_Some (m : StorageMap) (n k : string) :
  is_Some (m !! k) -> equals_insensitive k n = true -> is_Some (find_in m n).
Proof.
  intros Hk Heq. destruct (find_in m n) eqn:Hfind; [eauto|].
  rewrite (find_in_None m n Hfind k Hk) in Heq. discriminate.
Qed.

Lemma find_pointwise {A} (f g : A -> bool) (l : list A) :
  (forall x, f x = g x) -> List.find f l = List.find g l.
Proof.
  intros Hfg. induction l as [|x l IH]; simpl; [reflexivity|].
  rewrite Hfg, IH. reflexivity.
Qed.

(** The lookup does not tell case variants apart. *)
Lemma find_in_congr (m : StorageMap) (a b : string) :
  equals_insensitive a b = true -> find_in m a = find_in m b.
Proof.
  intros Hab. unfold find_in. f_equal.
  apply find_pointwise. intros [k h]. simpl.
  rewrite !(equals_insensitive_sym k).
  apply equals_insensitive_congr, Hab.
Qed.

(** With keys distinct up to case, the lookup has one possible answer. *)
Lemma find_in_unique (m : StorageMap) (n k : string) (h : Handle) :
  case_distinct m -> m !! k = Some h -> equals_insensitive k n = true ->
  find_in m n = Some h.
Proof.
  intros Hm Hk Heq.
  destruct (find_in_is_Some m n k) as [h' Hfind]; [eauto|exact Heq|].
  destruct (find_in_Some m n h' Hfind) as (k' & Hk' & Heq').
  assert (k = k') as <-.
  { apply Hm; eauto. eapply equals_insensitive_trans; [exact Heq|].
    rewrite equals_insensitive_sym. exact Heq'. }
  congruence.
Qed.

(** Where the lookup found nothing, a new entry is the one it finds next,
    under any casing of the new key. *)
Lemma find_in_insert_fresh (m : StorageMap) (n n' : string) (h : Handle) :
  find_in m n = None -> equals_insensitive n' n = true ->
  find_in (<[n := h]> m) n' = Some h.
Proof.
  intros Hnone Heq.
  destruct (find_in_is_Some (<[n := h]> m) n' n) as [h' Hfind].
  { rewrite lookup_insert_eq. eauto. }
  { rewrite equals_insensitive_sym. exact Heq. }
  rewrite Hfind. f_equal.
  destruct (find_in_Some _ _ _ Hfind) as (k & Hk & Hkn').
  destruct (decide (n = k)) as [<-|Hne].
  - rewrite lookup_insert_eq in Hk. congruence.
  - rewrite lookup_insert_ne in Hk by exact Hne.
    assert (equals_insensitive k n = false) as Hkn.
    { apply (find_in_None m n Hnone). eauto. }
    rewrite (equals_insensitive_trans k n' n Hkn' Heq) in Hkn. discriminate.
Qed.

Lemma case_distinct_empty : case_distinct ∅.
Proof. intros k1 k2 [h H]. rewrite lookup_empty in H. discriminate. Qed.

(** Inserting under a name the lookup did not find keeps the keys distinct. *)
Lemma case_distinct_insert (m : StorageMap) (n : string) (h : Handle) :
  case_distinct m -> find_in m n = None -> case_distinct (<[n := h]> m).
Proof.
  intros Hm Hnone k1 k2 H1 H2 Heq.
  destruct (decide (n = k1)) as [<-|Hne1], (decide (n = k2)) as [<-|Hne2];
    try reflexivity.
  - rewrite lookup_insert_ne in H2 by exact Hne2.
    rewrite equals_insensitive_sym in Heq.
    rewrite (find_in_None m n Hnone k2 H2) in Heq. discriminate.
  - rewrite lookup_insert_ne in H1 by exact Hne1.
    rewrite (find_in_None m n Hnone k1 H1) in Heq. discriminate.
  - rewrite lookup_insert_ne in H1 by exact Hne1.
    rewrite lookup_insert_ne in H2 by exact Hne2.
    apply Hm; assumption.
Qed.

End FindFacts.

(** ** The members, path by path *)

(** Calls listed one by one, none of them [remove_all]. *)
Ltac no_removal :=
  let c := fresh "c" in
  let q := fresh "q" in
  let Hc := fresh "Hc" in
  unfold Fs.no_removal in *;
  intros c q Hc;
  repeat (apply elem_of_app in Hc as [Hc|Hc]; [solve [eauto]|]);
  repeat (apply elem_of_cons in Hc as [->|Hc]; [reflexivity|]);
  first [solve [eauto] | apply elem_of_nil in Hc; contradiction].

Module Paths.

Import Path Monad FileSystem.

(** Names the state [load] has built when it turns to the filesystem, and
    forgets how it was built. *)
Ltac load_prepare s p_handle p_logger s0 :=
  unfold load, bind, get, modify, ret; cbv beta iota;
  set (s0 := set_storages_path _
               (set_game_path _ (set_logger p_logger (set_handle p_handle s))));
  assert (handle s0 = p_handle /\ logger s0 = p_logger
          /\ game_path s0
             = parent_path (parent_path (Fs.absolute ["."] (fs s)))
          /\ storages_path s0 = game_path s0 // "r6" // "storages"
          /\ storages s0 = storages s /\ objects s0 = objects s
          /\ fs s0 = fs s /\ fs_calls s0 = fs_calls s /\ log s0 = log s)
    as (? & ? & ? & ? & ? & ? & ? & ? & ?) by (split_and!; reflexivity);
  change (storages_path
            (set_storages_path _
               (set_game_path _ (set_logger p_logger (set_handle p_handle s)))))
    with (storages_path s0) in *;
  clearbody s0.

Section WithFilesystem.

Context {FS : Type} {std_fs : Fs.StdFilesystem FS}.

Implicit Types (s : State FS) (name : string) (h : Handle).

Lemma guard_accepted name :
  negb (Regex.regex_match name storage_name_rule)
  || Text.equals_insensitive name "shared" = negb (accepted name).
Proof.
  unfold accepted.
  destruct (Regex.regex_match _ _), (Text.equals_insensitive _ _); reflexivity.
Qed.

(** [request_directory] always returns, having asked whether the path
    exists and, at most once, having tried to create it; it touches the
    filesystem only. *)
Lemma request_directory_runs (p : path) s :
  exists b w cs,
    request_directory p s = Some (b, with_world w cs s)
    /\ (cs = [Fs.Exists p] \/ cs = [Fs.Exists p; Fs.CreateDirectory p]).
Proof.
  unfold request_directory, bind, fs_exists, fs_create_directory, ret.
  destruct (Fs.exists_ p (fs s)) as [w [present e]] eqn:He.
  destruct e as [e|]; simpl.
  { exists false, w, [Fs.Exists p]. split; [reflexivity|left; reflexivity]. }
  destruct present.
  { exists true, w, [Fs.Exists p]. split; [reflexivity|left; reflexivity]. }
  simpl. destruct (Fs.create_directory p w) as [w' [created e']] eqn:Hc.
  exists (negb (negb created || Fs.is_set e')), w',
    [Fs.Exists p; Fs.CreateDirectory p].
  split; [|right; reflexivity].
  unfold with_world, set_fs. simpl. rewrite <- app_assoc. simpl.
  destruct (negb created || Fs.is_set e'); reflexivity.
Qed.

(** *** [get_storage] *)

Lemma get_storage_null_logger name s :
  logger s = None -> get_storage name s = None.
Proof.
  intros Hlog.
  unfold get_storage, bind, get, ret, logger_write, find_storage,
    revoke_permission, modify, make_handle, storages_assign.
  destruct (has_error s); simpl; [rewrite Hlog; reflexivity|].
  rewrite guard_accepted. destruct (accepted name); simpl;
    [|rewrite Hlog; reflexivity].
  destruct (find_in (storages s) name); simpl; [rewrite Hlog; reflexivity|].
  destruct (request_directory_runs (storages_path s // name) s)
    as (b & w & cs & -> & _).
  destruct b; simpl; rewrite Hlog; reflexivity.
Qed.

Lemma get_storage_disabled name s :
  has_error s = true -> is_Some (logger s) ->
  get_storage name s
  = Some (None, add_log (Log.Error, handle s, Log.DisabledForAllMods) s).
Proof.
  intros Herr [lg Hlog].
  unfold get_storage, bind, get, ret, logger_write. simpl.
  rewrite Herr, Hlog. reflexivity.
Qed.

Lemma get_storage_rejected name s :
  has_error s = false -> is_Some (logger s) -> accepted name = false ->
  get_storage name s
  = Some (None, add_log (Log.Error, handle s, Log.SeeDocumentation)
                  (add_log (Log.Error, handle s, Log.NameNotAllowed name) s)).
Proof.
  intros Herr [lg Hlog] Hacc.
  unfold get_storage, bind, get, ret, logger_write. simpl.
  rewrite Herr, guard_accepted, Hacc. simpl. rewrite Hlog. simpl.
  rewrite Hlog. reflexivity.
Qed.

Lemma get_storage_conflict name h s :
  has_error s = false -> is_Some (logger s) -> accepted name = true ->
  find_in (storages s) name = Some h ->
  get_storage name s
  = Some (None, add_log (Log.Error, handle s, Log.SeveralTimes name)
                  (set_objects (alter Storage.revoke_permission h (objects s)) s)).
Proof.
  intros Herr [lg Hlog] Hacc Hfind.
  unfold get_storage, bind, get, ret, logger_write, find_storage,
    revoke_permission, modify. simpl.
  rewrite Herr, guard_accepted, Hacc. simpl. rewrite Hfind. simpl.
  rewrite Hlog. reflexivity.
Qed.

Lemma get_storage_not_provisioned name s w cs :
  has_error s = false -> is_Some (logger s) -> accepted name = true ->
  find_in (storages s) name = None ->
  request_directory (storages_path s // name) s = Some (false, with_world w cs s) ->
  get_storage name s
  = Some (None, add_log (Log.Error, handle s, Log.FailedCreateStorage name)
                  (with_world w cs s)).
Proof.
  intros Herr [lg Hlog] Hacc Hfind Hreq.
  unfold get_storage, bind, get, ret, logger_write, find_storage. simpl.
  rewrite Herr, guard_accepted, Hacc. simpl. rewrite Hfind, Hreq. simpl.
  rewrite Hlog. reflexivity.
Qed.

Lemma get_storage_granted name s w cs :
  has_error s = false -> is_Some (logger s) -> accepted name = true ->
  find_in (storages s) name = None ->
  request_directory (storages_path s // name) s = Some (true, with_world w cs s) ->
  get_storage name s
  = Some (Some (length (objects s)),
          add_log (Log.Info, handle s, Log.AccessGranted name)
            (set_storages (<[name := length (objects s)]> (storages s))
               (set_objects
                  (objects s ++ [Storage.make name (storages_path s // name)])
                  (with_world w cs s)))).
Proof.
  intros Herr [lg Hlog] Hacc Hfind Hreq.
  unfold get_storage, bind, get, ret, logger_write, find_storage, make_handle,
    storages_assign, modify. simpl.
  rewrite Herr, guard_accepted, Hacc. simpl. rewrite Hfind, Hreq. simpl.
  rewrite Hlog. reflexivity.
Qed.

(** *** [get_shared_storage] *)

Lemma get_shared_storage_null_logger s :
  logger s = None -> get_shared_storage s = None.
Proof.
  intros Hlog.
  unfold get_shared_storage, bind, get, ret, logger_write, find_storage,
    modify, make_handle, storages_assign.
  destruct (has_error s); simpl; [rewrite Hlog; reflexivity|].
  destruct (find_in (storages s) "shared"); simpl; [rewrite Hlog; reflexivity|].
  destruct (request_directory_runs (storages_path s // "shared") s)
    as (b & w & cs & -> & _).
  destruct b; simpl; rewrite Hlog; reflexivity.
Qed.

Lemma get_shared_storage_disabled s :
  has_error s = true -> is_Some (logger s) ->
  get_shared_storage s
  = Some (None, add_log (Log.Error, handle s, Log.Disabled) s).
Proof.
  intros Herr [lg Hlog].
  unfold get_shared_storage, bind, get, ret, logger_write. simpl.
  rewrite Herr, Hlog. reflexivity.
Qed.

Lemma get_shared_storage_again h s :
  has_error s = false -> is_Some (logger s) ->
  find_in (storages s) "shared" = Some h ->
  get_shared_storage s
  = Some (Some h, add_log (Log.Info, handle s, Log.SharedGranted) s).
Proof.
  intros Herr [lg Hlog] Hfind.
  unfold get_shared_storage, bind, get, ret, logger_write, find_storage. simpl.
  rewrite Herr. simpl. rewrite Hfind. simpl. rewrite Hlog. reflexivity.
Qed.

Lemma get_shared_storage_not_provisioned s w cs :
  has_error s = false -> is_Some (logger s) ->
  find_in (storages s) "shared" = None ->
  request_directory (storages_path s // "shared") s
  = Some (false, with_world w cs s) ->
  get_shared_storage s
  = Some (None, add_log (Log.Error, handle s, Log.FailedCreateShared)
                  (with_world w cs s)).
Proof.
  intros Herr [lg Hlog] Hfind Hreq.
  unfold get_shared_storage, bind, get, ret, logger_write, find_storage. simpl.
  rewrite Herr. simpl. rewrite Hfind, Hreq. simpl. rewrite Hlog. reflexivity.
Qed.

Lemma get_shared_storage_granted s w cs :
  has_error s = false -> is_Some (logger s) ->
  find_in (storages s) "shared" = None ->
  request_directory (storages_path s // "shared") s
  = Some (true, with_world w cs s) ->
  get_shared_storage s
  = Some (Some (length (objects s)),
          add_log (Log.Info, handle s, Log.SharedGranted)
            (set_storages (<["shared" := length (objects s)]> (storages s))
               (set_objects
                  (objects s
                   ++ [Storage.make "shared" (storages_path s // "shared")])
                  (with_world w cs s)))).
Proof.
  intros Herr [lg Hlog] Hfind Hreq.
  unfold get_shared_storage, bind, get, ret, logger_write, find_storage,
    make_handle, storages_assign, modify. simpl.
  rewrite Herr. simpl. rewrite Hfind, Hreq. simpl. rewrite Hlog. reflexivity.
Qed.

(** *** [unload] *)

Lemma unload_null_logger s : logger s = None -> unload s = None.
Proof.
  intros Hlog.
  unfold unload, bind, get, ret, modify, fs_remove_all, logger_write.
  simpl. destruct (Fs.remove_all _ (fs s)) as [w e]. simpl.
  rewrite Hlog. reflexivity.
Qed.

Lemma unload_runs s :
  is_Some (logger s) ->
  let old_path := old_path_of (game_path s) in
  unload s
  = Some (tt, set_logger None (set_handle None
                (add_log (Log.Info, handle s, Log.HasBeenTerminated)
                   (set_has_error true (set_storages ∅
                      (set_fs (Fs.remove_all old_path (fs s)).1
                         (Fs.RemoveAll old_path) s)))))).
Proof.
  intros [lg Hlog] old_path. subst old_path.
  unfold unload, bind, get, ret, modify, fs_remove_all, logger_write.
  simpl. destruct (Fs.remove_all _ (fs s)) as [w e]. simpl.
  rewrite Hlog. reflexivity.
Qed.

(** *** [load] *)

(** What [request_directory] does depends on the filesystem alone. *)
Lemma request_directory_world (p : path) s s' b w cs :
  request_directory p s = Some (b, with_world w cs s) ->
  fs s' = fs s ->
  request_directory p s' = Some (b, with_world w cs s').
Proof.
  unfold request_directory, bind, fs_exists, fs_create_directory, ret.
  intros Hreq Hfs. rewrite Hfs.
  destruct (Fs.exists_ p (fs s)) as [w1 [present e]].
  assert (forall (x y : State FS) (b1 b2 : bool),
            Some (b1, x) = Some (b2, y) ->
            b1 = b2 /\ fs x = fs y /\ fs_calls x = fs_calls y) as Hinv.
  { intros x y b1 b2 [= -> ->]. auto. }
  destruct e as [e|]; simpl in *.
  { apply Hinv in Hreq as (<- & Hw & Hcs). simpl in Hw, Hcs. subst w.
    apply app_inv_head in Hcs as <-. reflexivity. }
  destruct present; simpl in *.
  { apply Hinv in Hreq as (<- & Hw & Hcs). simpl in Hw, Hcs. subst w.
    apply app_inv_head in Hcs as <-. reflexivity. }
  destruct (Fs.create_directory p w1) as [w2 [created e']].
  destruct (negb created || Fs.is_set e'); simpl in *;
    apply Hinv in Hreq as (<- & Hw & Hcs); simpl in Hw, Hcs; subst w;
    rewrite <- app_assoc in Hcs; apply app_inv_head in Hcs as <-;
    unfold with_world, set_fs; simpl; rewrite <- app_assoc; reflexivity.
Qed.


Lemma logger_write_runs (lvl : Log.level) (msg : Log.message) s :
  is_Some (logger s) ->
  logger_write lvl msg s = Some (tt, add_log (lvl, handle s, msg) s).
Proof. intros [lg Hlog]. unfold logger_write. rewrite Hlog. reflexivity. Qed.

(** [migrate_directory], with a logger at hand, by what the filesystem
    answers. *)
Lemma migrate_directory_cases (old_path new_path : path) s :
  is_Some (logger s) ->
  let options := [Fs.overwrite_existing; Fs.recursive] in
  exists b s',
    migrate_directory old_path new_path s = Some (b, s')
    /\ handle s' = handle s /\ logger s' = logger s
    /\ game_path s' = game_path s /\ storages_path s' = storages_path s
    /\ storages s' = storages s /\ objects s' = objects s
    /\ match Fs.exists_ old_path (fs s) with
       | (w2, (_, Some _)) =>
           b = false /\ fs s' = w2
           /\ fs_calls s' = fs_calls s ++ [Fs.Exists old_path]
       | (w2, (false, None)) =>
           b = true /\ fs s' = w2
           /\ fs_calls s' = fs_calls s ++ [Fs.Exists old_path]
       | (w2, (true, None)) =>
           b = negb (Fs.is_set (Fs.copy old_path new_path options w2).2)
           /\ fs s' = (Fs.copy old_path new_path options w2).1
           /\ fs_calls s' = fs_calls s
                            ++ [Fs.Exists old_path;
                                Fs.Copy old_path new_path options]
       end.
Proof.
  intros [lg Hlog] options.
  unfold migrate_directory, bind, fs_exists, fs_copy, ret, logger_write.
  destruct (Fs.exists_ old_path (fs s)) as [w2 [has_old [e|]]]; simpl.
  { eexists _, _. split; [reflexivity|]. simpl.
    destruct has_old; auto 12. }
  destruct has_old; simpl.
  2: { eexists _, _. split; [reflexivity|]. simpl. auto 12. }
  fold options.
  destruct (Fs.copy old_path new_path options w2) as [w3 [e3|]]; simpl.
  - rewrite Hlog. eexists _, _. split; [reflexivity|]. simpl.
    rewrite <- app_assoc. auto 12.
  - eexists _, _. split; [reflexivity|]. simpl.
    rewrite <- app_assoc. auto 12.
Qed.

Lemma load_null_logger p_handle s : load p_handle None s = None.
Proof.
  load_prepare s p_handle (@None Logger) s0.
  destruct (request_directory_runs (storages_path s0) s0)
    as (b & w & cs & -> & _).
  cbv beta iota.
  assert (forall lvl msg s1, logger s1 = logger s0 ->
            logger_write lvl msg s1 = None) as Hwrite.
  { intros lvl msg s1 Hs1. unfold logger_write. rewrite Hs1.
    replace (logger s0) with (@None Logger). reflexivity. }
  destruct b; cbn [negb].
  2: { rewrite Hwrite by reflexivity. reflexivity. }
  unfold migrate_directory, bind, fs_exists, fs_copy, ret. cbv beta iota.
  destruct (Fs.exists_ _ _) as [w2 [has_old [e|]]]; cbn [Fs.is_set].
  { cbv beta iota. cbn [negb]. rewrite Hwrite by reflexivity. reflexivity. }
  destruct has_old; cbn [negb]; cbv beta iota.
  2: { cbn [negb]. rewrite Hwrite by reflexivity. reflexivity. }
  destruct (Fs.copy _ _ _ _) as [w3 [e3|]]; cbv beta iota.
  - rewrite Hwrite by reflexivity. reflexivity.
  - cbn [negb]. rewrite Hwrite by reflexivity. reflexivity.
Qed.

(** [load], given a logger, by what the filesystem answers. *)
Lemma load_cases s p_handle (lg : Logger) :
  let game := parent_path (parent_path (Fs.absolute ["."] (fs s))) in
  let root := game // "r6" // "storages" in
  let old_path := old_path_of game in
  let options := [Fs.overwrite_existing; Fs.recursive] in
  exists s' ensured w1 cs1,
    load p_handle (Some lg) s = Some (tt, s')
    /\ request_directory root s = Some (ensured, with_world w1 cs1 s)
    /\ Fs.no_removal cs1
    /\ handle s' = p_handle /\ logger s' = Some lg
    /\ game_path s' = game /\ storages_path s' = root
    /\ storages s' = storages s /\ objects s' = objects s
    /\ if ensured then
         match Fs.exists_ old_path w1 with
         | (w2, (_, Some _)) =>
             has_error s' = true /\ fs s' = w2
             /\ fs_calls s' = fs_calls s ++ cs1 ++ [Fs.Exists old_path]
         | (w2, (false, None)) =>
             has_error s' = false /\ fs s' = w2
             /\ fs_calls s' = fs_calls s ++ cs1 ++ [Fs.Exists old_path]
         | (w2, (true, None)) =>
             has_error s' = Fs.is_set (Fs.copy old_path root options w2).2
             /\ fs s' = (Fs.copy old_path root options w2).1
             /\ fs_calls s' = fs_calls s ++ cs1
                              ++ [Fs.Exists old_path;
                                  Fs.Copy old_path root options]
         end
       else
         has_error s' = true /\ fs s' = w1
         /\ fs_calls s' = fs_calls s ++ cs1.
Proof.
  intros game root old_path options.
  destruct (request_directory_runs root s) as (ensured & w1 & cs1 & Hreq & Hcs).
  assert (Fs.no_removal cs1) as Hdel by (destruct Hcs as [-> | ->]; no_removal).
  clear Hcs.
  load_prepare s p_handle (Some lg) s0.
  assert (game_path s0 = game) as Hgame by assumption.
  assert (storages_path s0 = root) as Hroot
    by (unfold root; rewrite <- Hgame; assumption).
  rewrite Hroot.
  rewrite (request_directory_world root s s0 ensured w1 cs1 Hreq)
    by assumption.
  cbv beta iota.
  set (s1 := with_world w1 cs1 s0).
  assert (handle s1 = p_handle /\ logger s1 = Some lg
          /\ game_path s1 = game /\ storages_path s1 = root
          /\ storages s1 = storages s /\ objects s1 = objects s
          /\ fs s1 = w1 /\ fs_calls s1 = fs_calls s ++ cs1)
    as (Hh1 & Hl1 & Hg1 & Hr1 & Hst1 & Hob1 & Hfs1 & Hc1).
  { subst s1. simpl. split_and!; congruence. }
  clearbody s1.
  assert (forall s2, logger s2 = logger s1 -> is_Some (logger s2)) as Hlogger.
  { intros s2 ->. rewrite Hl1. eauto. }
  destruct ensured; cbn [negb]; cbv beta.
  2: { rewrite !logger_write_runs by (apply Hlogger; reflexivity).
       eexists _, false, w1, cs1. split; [reflexivity|]. simpl.
       split_and!; assumption || reflexivity. }
  rewrite Hg1. fold old_path.
  destruct (migrate_directory_cases old_path root s1)
    as (b & s2 & Hmig & Hh2 & Hl2 & Hg2 & Hr2 & Hst2 & Hob2 & Hcases);
    [apply Hlogger; reflexivity|].
  fold options in Hmig. rewrite Hmig. cbv beta iota.
  rewrite Hfs1, Hc1 in Hcases.
  destruct b; cbn [negb];
    rewrite !logger_write_runs by (apply Hlogger; simpl; assumption);
    eexists _, true, w1, cs1; (split; [reflexivity|]); simpl;
    (split; [exact Hreq|]); (split; [exact Hdel|]);
    (split; [congruence|]); (split; [congruence|]);
    (split; [congruence|]); (split; [congruence|]);
    (split; [congruence|]); (split; [congruence|]);
    fold options;
    destruct (Fs.exists_ old_path w1) as [w2 [[] [e|]]];
    destruct Hcases as (Hb & Hfs2 & Hc2); try discriminate;
    rewrite <- ?app_assoc in Hc2; split_and!; try assumption; try reflexivity.
  - destruct (Fs.is_set _); [discriminate|reflexivity].
  - destruct (Fs.is_set _); [reflexivity|discriminate].
Qed.

(** Whatever [load] finds on disk, it returns when given a logger, and
    leaves the statics as follows. *)
Lemma load_frame p_handle (lg : Logger) s :
  exists s' cs,
    load p_handle (Some lg) s = Some (tt, s')
    /\ handle s' = p_handle /\ logger s' = Some lg
    /\ game_path s' = parent_path (parent_path (Fs.absolute ["."] (fs s)))
    /\ storages_path s' = game_path s' // "r6" // "storages"
    /\ storages s' = storages s /\ objects s' = objects s
    /\ fs_calls s' = fs_calls s ++ cs
    /\ Fs.no_removal cs.
Proof.
  destruct (load_cases s p_handle lg)
    as (s' & ensured & w1 & cs1 & Hload & _ & Hdel & Hh & Hl & Hg & Hr
        & Hst & Hob & Hcases).
  exists s'.
  assert (exists cs, fs_calls s' = fs_calls s ++ cs /\ Fs.no_removal cs)
    as (cs & Hcs & Hno).
  { destruct ensured.
    - destruct (Fs.exists_ _ w1) as [w2 [[] [e|]]];
        destruct Hcases as (_ & _ & ->); eexists; (split; [reflexivity|]);
        no_removal.
    - destruct Hcases as (_ & _ & ->). eauto. }
  exists cs. rewrite Hg. auto 10.
Qed.

End WithFilesystem.

End Paths.

(** ** What one request changes *)

Module Effects.

Import Path Monad FileSystem TextFacts NameFacts FindFacts Paths.

Section WithFilesystem.

Context {FS : Type} {std_fs : Fs.StdFilesystem FS}.

Implicit Types (s : State FS) (name : string) (h : Handle).

Lemma objects_evolve_refl s s' : objects s' = objects s -> objects_evolve s s'.
Proof. unfold objects_evolve. intros -> h o Ho. exists o. auto. Qed.

Lemma objects_evolve_alloc s s' o :
  objects s' = objects s ++ [o] -> objects_evolve s s'.
Proof.
  unfold objects_evolve. intros -> h o' Ho. exists o'. split; [|auto].
  apply lookup_app_l_Some, Ho.
Qed.

Lemma objects_evolve_revoke s s' h :
  objects s' = alter Storage.revoke_permission h (objects s) ->
  objects_evolve s s'.
Proof.
  unfold objects_evolve.
  intros -> h' o Ho. destruct (decide (h = h')) as [<-|Hne].
  - exists (Storage.revoke_permission o).
    rewrite list_lookup_alter_eq, Ho. auto.
  - exists o. rewrite list_lookup_alter_ne by exact Hne. auto.
Qed.

Lemma objects_evolve_trans s1 s2 s3 :
  objects_evolve s1 s2 -> objects_evolve s2 s3 -> objects_evolve s1 s3.
Proof.
  intros H12 H23 h o Ho.
  destruct (H12 h o Ho) as (o' & Ho' & Hn & Hp & Hr).
  destruct (H23 h o' Ho') as (o'' & Ho'' & Hn' & Hp' & Hr').
  exists o''. repeat split; try congruence. auto.
Qed.

Lemma objects_evolve_revoked s s' h :
  objects_evolve s s' -> is_revoked s h -> is_revoked s' h.
Proof.
  unfold is_revoked. intros Hev Hrev.
  destruct (objects s !! h) as [o|] eqn:Ho; [|discriminate].
  destruct (Hev h o Ho) as (o' & Ho' & _ & _ & Hr).
  rewrite Ho'. simpl in *. f_equal. apply Hr. congruence.
Qed.

(** Closes the conjuncts of a summary that hold by computation, given the
    filesystem calls [cs] the path made. *)
Ltac summarize cs :=
  unfold statics_kept, storages_evolve; simpl;
  repeat match goal with |- _ /\ _ => split end;
  try reflexivity;
  try (intros ? ?; discriminate);
  try (left; reflexivity);
  try (right; split; [assumption|split; reflexivity]);
  try (exists cs; split;
       [rewrite ?app_nil_r; reflexivity | first [assumption | no_removal]]);
  try (apply objects_evolve_refl; reflexivity);
  try (eapply objects_evolve_alloc; reflexivity);
  try (eapply objects_evolve_revoke; reflexivity).

(** Every way [get_storage] can return. *)
Lemma get_storage_summary name s r s' :
  get_storage name s = Some (r, s') ->
  is_Some (logger s) /\ statics_kept s s'
  /\ (exists cs, fs_calls s' = fs_calls s ++ cs /\ Fs.no_removal cs)
  /\ objects_evolve s s'
  /\ storages_evolve name s s'
  /\ (forall h, r = Some h ->
        h = length (objects s) /\ storages s' <> storages s).
Proof.
  intros Hrun.
  destruct (logger s) as [lg|] eqn:Hlog;
    [|rewrite get_storage_null_logger in Hrun by exact Hlog; discriminate].
  assert (is_Some (logger s)) as Hlogger by (rewrite Hlog; eauto).
  split; [eauto|].
  destruct (has_error s) eqn:Herr.
  { rewrite get_storage_disabled in Hrun by assumption.
    injection Hrun as <- <-. summarize (@nil Fs.call). }
  destruct (accepted name) eqn:Hacc.
  2: { rewrite get_storage_rejected in Hrun by assumption.
       injection Hrun as <- <-. summarize (@nil Fs.call). }
  destruct (find_in (storages s) name) as [h|] eqn:Hfind.
  { rewrite (get_storage_conflict name h) in Hrun by assumption.
    injection Hrun as <- <-. summarize (@nil Fs.call). }
  destruct (request_directory_runs (storages_path s // name) s)
    as (b & w & cs & Hreq & Hcs).
  assert (Fs.no_removal cs) by (destruct Hcs as [-> | ->]; no_removal).
  destruct b.
  - rewrite (get_storage_granted name s w cs) in Hrun by assumption.
    injection Hrun as <- <-. summarize cs.
    intros h [= <-]. split; [reflexivity|]. intros Heq.
    assert (is_Some (storages s !! name)) as Hin.
    { rewrite <- Heq, lookup_insert_eq. eauto. }
    pose proof (find_in_None _ _ Hfind name Hin) as Hno.
    rewrite equals_insensitive_refl in Hno. discriminate.
  - rewrite (get_storage_not_provisioned name s w cs) in Hrun by assumption.
    injection Hrun as <- <-. summarize cs.
Qed.

(** Every way [get_shared_storage] can return. *)
Lemma get_shared_storage_summary s r s' :
  get_shared_storage s = Some (r, s') ->
  is_Some (logger s) /\ statics_kept s s'
  /\ (exists cs, fs_calls s' = fs_calls s ++ cs /\ Fs.no_removal cs)
  /\ objects_evolve s s'
  /\ storages_evolve "shared" s s'.
Proof.
  intros Hrun.
  destruct (logger s) as [lg|] eqn:Hlog;
    [|rewrite get_shared_storage_null_logger in Hrun by exact Hlog;
      discriminate].
  assert (is_Some (logger s)) as Hlogger by (rewrite Hlog; eauto).
  split; [eauto|].
  destruct (has_error s) eqn:Herr.
  { rewrite get_shared_storage_disabled in Hrun by assumption.
    injection Hrun as <- <-. summarize (@nil Fs.call). }
  destruct (find_in (storages s) "shared") as [h|] eqn:Hfind.
  { rewrite (get_shared_storage_again h) in Hrun by assumption.
    injection Hrun as <- <-. summarize (@nil Fs.call). }
  destruct (request_directory_runs (storages_path s // "shared") s)
    as (b & w & cs & Hreq & Hcs).
  assert (Fs.no_removal cs) by (destruct Hcs as [-> | ->]; no_removal).
  destruct b.
  - rewrite (get_shared_storage_granted s w cs) in Hrun by assumption.
    injection Hrun as <- <-. summarize cs.
  - rewrite (get_shared_storage_not_provisioned s w cs) in Hrun by assumption.
    injection Hrun as <- <-. summarize cs.
Qed.

End WithFilesystem.

End Effects.

(** ** Sessions *)

Module Sessions.

Import Path Monad FileSystem TextFacts NameFacts FindFacts Paths Effects.

Section WithFilesystem.

Context {FS : Type} {std_fs : Fs.StdFilesystem FS}.

Implicit Types (s : State FS) (name : string) (h : Handle) (r : request).

Lemma find_in_None_lookup (m : StorageMap) name :
  find_in m name = None -> m !! name = None.
Proof.
  intros Hnone. destruct (m !! name) as [h|] eqn:Hm; [|reflexivity].
  assert (is_Some (m !! name)) as Hin by (rewrite Hm; eauto).
  pose proof (find_in_None m name Hnone name Hin) as Hno.
  rewrite equals_insensitive_refl in Hno. discriminate.
Qed.

(** An entry of the map outlives every acquisition. *)
Lemma storages_evolve_lookup name s s' (k : string) h :
  storages_evolve name s s' ->
  storages s !! k = Some h -> storages s' !! k = Some h.
Proof.
  intros [-> | (Hnone & -> & _)] Hk; [exact Hk|].
  rewrite lookup_insert_ne; [exact Hk|].
  intros <-. rewrite (find_in_None_lookup _ _ Hnone) in Hk. discriminate.
Qed.

Lemma storages_evolve_distinct name s s' :
  storages_evolve name s s' ->
  case_distinct (storages s) -> case_distinct (storages s').
Proof.
  intros [-> | (Hnone & -> & _)] Hm; [exact Hm|].
  apply case_distinct_insert; assumption.
Qed.

Lemma storages_evolve_objects name s s' :
  storages_evolve name s s' -> objects_evolve s s' ->
  (forall (k : string) h, storages s !! k = Some h -> is_Some (objects s !! h)) ->
  forall (k : string) h, storages s' !! k = Some h -> is_Some (objects s' !! h).
Proof.
  intros Hev Hobj Hs k h Hk.
  assert (forall h', is_Some (objects s !! h') -> is_Some (objects s' !! h'))
    as Hkeep.
  { intros h' [o Ho]. destruct (Hobj h' o Ho) as (o' & Ho' & _). eauto. }
  destruct Hev as [Heq | (Hnone & Heq & Hnew)]; rewrite Heq in Hk.
  - eauto.
  - destruct (decide (name = k)) as [<-|Hne].
    + rewrite lookup_insert_eq in Hk. injection Hk as <-.
      rewrite Hnew, list_lookup_middle by reflexivity. eauto.
    + rewrite lookup_insert_ne in Hk by exact Hne. eauto.
Qed.

(** With a logger to write to, the acquisition members always return. *)
Lemma get_storage_returns name s :
  is_Some (logger s) -> exists res s', get_storage name s = Some (res, s').
Proof.
  intros Hlog.
  destruct (has_error s) eqn:Herr.
  { rewrite get_storage_disabled by assumption. eauto. }
  destruct (accepted name) eqn:Hacc.
  2: { rewrite get_storage_rejected by assumption. eauto. }
  destruct (find_in (storages s) name) as [h|] eqn:Hfind.
  { rewrite (get_storage_conflict name h) by assumption. eauto. }
  destruct (request_directory_runs (storages_path s // name) s)
    as ([] & w & cs & Hreq & _).
  - rewrite (get_storage_granted name s w cs) by assumption. eauto.
  - rewrite (get_storage_not_provisioned name s w cs) by assumption. eauto.
Qed.

Lemma get_shared_storage_returns s :
  is_Some (logger s) -> exists res s', get_shared_storage s = Some (res, s').
Proof.
  intros Hlog.
  destruct (has_error s) eqn:Herr.
  { rewrite get_shared_storage_disabled by assumption. eauto. }
  destruct (find_in (storages s) "shared") as [h|] eqn:Hfind.
  { rewrite (get_shared_storage_again h) by assumption. eauto. }
  destruct (request_directory_runs (storages_path s // "shared") s)
    as ([] & w & cs & Hreq & _).
  - rewrite (get_shared_storage_granted s w cs) by assumption. eauto.
  - rewrite (get_shared_storage_not_provisioned s w cs) by assumption. eauto.
Qed.

(** What one acquisition changes, whichever of the two it is. *)
Lemma acquisition_summary r s s' :
  is_acquisition r = true -> perform r s = Some (tt, s') ->
  is_Some (logger s) /\ statics_kept s s'
  /\ (exists cs, fs_calls s' = fs_calls s ++ cs /\ Fs.no_removal cs)
  /\ objects_evolve s s'
  /\ exists name, storages_evolve name s s'.
Proof.
  destruct r as [? ?| |name|]; try discriminate; intros _ Hrun; simpl in Hrun;
    unfold bind, ret in Hrun.
  - destruct (get_storage name s) as [[res s1]|] eqn:Hget; [|discriminate].
    injection Hrun as <-.
    destruct (get_storage_summary _ _ _ _ Hget) as (? & ? & ? & ? & ? & _).
    eauto 10.
  - destruct (get_shared_storage s) as [[res s1]|] eqn:Hget; [|discriminate].
    injection Hrun as <-.
    destruct (get_shared_storage_summary _ _ _ Hget) as (? & ? & ? & ? & ?).
    eauto 10.
Qed.

Lemma acquisition_runs r s :
  is_acquisition r = true -> is_Some (logger s) ->
  exists s', perform r s = Some (tt, s').
Proof.
  destruct r as [? ?| |name|]; try discriminate; intros _ Hlog; simpl;
    unfold bind, ret.
  - destruct (get_storage_returns name s Hlog) as (res & s' & ->). eauto.
  - destruct (get_shared_storage_returns s Hlog) as (res & s' & ->). eauto.
Qed.

Lemma statics_kept_trans s1 s2 s3 :
  statics_kept s1 s2 -> statics_kept s2 s3 -> statics_kept s1 s3.
Proof.
  unfold statics_kept. intros (? & ? & ? & ? & ?) (? & ? & ? & ? & ?).
  repeat split; congruence.
Qed.

(** Through any number of acquisitions: the statics stay, the entries of
    the map stay, revoked objects stay revoked, nothing is deleted. *)
Lemma acquisitions_summary (rs : list request) s s' :
  forallb is_acquisition rs = true ->
  perform_all rs s = Some (tt, s') ->
  statics_kept s s'
  /\ objects_evolve s s'
  /\ (forall (k : string) h,
        storages s !! k = Some h -> storages s' !! k = Some h)
  /\ (case_distinct (storages s) -> case_distinct (storages s'))
  /\ (exists cs, fs_calls s' = fs_calls s ++ cs /\ Fs.no_removal cs).
Proof.
  revert s. induction rs as [|r rs IH]; intros s Hrs Hrun; simpl in *.
  - injection Hrun as <-. unfold statics_kept. repeat split; auto.
    + apply objects_evolve_refl. reflexivity.
    + exists []. rewrite app_nil_r. split; [reflexivity|no_removal].
  - apply andb_prop in Hrs as [Hr Hrs]. unfold bind in Hrun.
    destruct (perform r s) as [[[] s1]|] eqn:Hstep; [|discriminate].
    destruct (acquisition_summary r s s1 Hr Hstep)
      as (_ & Hk1 & (cs1 & Hcs1 & Hdel1) & Ho1 & name & Hm1).
    destruct (IH s1 Hrs Hrun) as (Hk2 & Ho2 & Hm2 & Hd2 & cs2 & Hcs2 & Hdel2).
    split; [eapply statics_kept_trans; eassumption|].
    split; [eapply objects_evolve_trans; eassumption|].
    split; [intros k h Hk; eapply Hm2, storages_evolve_lookup; eassumption|].
    split; [intros Hd; eapply Hd2, storages_evolve_distinct; eassumption|].
    exists (cs1 ++ cs2). rewrite Hcs2, Hcs1, app_assoc.
    split; [reflexivity|]. no_removal.
Qed.

Lemma acquisitions_run (rs : list request) s :
  forallb is_acquisition rs = true -> is_Some (logger s) ->
  exists s', perform_all rs s = Some (tt, s').
Proof.
  revert s. induction rs as [|r rs IH]; intros s Hrs Hlog; simpl in *.
  - unfold ret. eauto.
  - apply andb_prop in Hrs as [Hr Hrs]. unfold bind.
    destruct (acquisition_runs r s Hr Hlog) as (s1 & Hstep). rewrite Hstep.
    apply IH; [exact Hrs|].
    destruct (acquisition_summary r s s1 Hr Hstep) as (_ & Hk & _).
    destruct Hk as (_ & -> & _). exact Hlog.
Qed.

(** *** The invariant of reachable states *)

Lemma sound_initial (world : FS) : sound (initial world).
Proof.
  unfold sound, initial. simpl. split; [apply case_distinct_empty|].
  split; [intros k h Hk; rewrite lookup_empty in Hk; discriminate|].
  split; [discriminate|]. intros [lg Hlg]. discriminate.
Qed.

Lemma sound_acquisition r s s' :
  is_acquisition r = true ->
  sound s -> perform r s = Some (tt, s') -> sound s'.
Proof.
  intros Hr (Hm & Hobj & Hen & Hpath) Hrun.
  destruct (acquisition_summary r s s' Hr Hrun)
    as (_ & (_ & Hl & He & Hg & Hp) & _ & Hev & n & Hst).
  unfold sound. rewrite Hl, He, Hg, Hp.
  split; [eapply storages_evolve_distinct; eassumption|].
  split; [eapply storages_evolve_objects; eassumption|auto].
Qed.

Lemma sound_perform r s s' :
  sound s -> perform r s = Some (tt, s') -> sound s'.
Proof.
  intros Hs Hrun.
  destruct r as [p_handle [lg|]| |name|];
    try (eapply sound_acquisition; [|eassumption..]; reflexivity);
    destruct Hs as (Hm & Hobj & Hen & Hpath); simpl in Hrun.
  - destruct (load_frame p_handle lg s)
      as (s1 & cs & Hload & _ & Hlog & _ & Hroot & Hst & Hob & _).
    rewrite Hload in Hrun. injection Hrun as <-.
    unfold sound. rewrite Hst, Hlog, Hob. eauto.
  - rewrite load_null_logger in Hrun. discriminate.
  - destruct (logger s) as [lg|] eqn:Hlog;
      [|rewrite unload_null_logger in Hrun by exact Hlog; discriminate].
    rewrite unload_runs in Hrun by (rewrite Hlog; eauto).
    injection Hrun as <-. unfold sound. simpl.
    split; [apply case_distinct_empty|].
    split; [intros k h Hk; rewrite lookup_empty in Hk; discriminate|].
    split; [discriminate|]. intros [? ?]. discriminate.
Qed.

Lemma sound_perform_all (rs : list request) s s' :
  sound s -> perform_all rs s = Some (tt, s') -> sound s'.
Proof.
  revert s. induction rs as [|r rs IH]; intros s Hs Hrun; simpl in Hrun.
  - injection Hrun as <-. exact Hs.
  - unfold bind in Hrun.
    destruct (perform r s) as [[[] s1]|] eqn:Hstep; [|discriminate].
    eapply IH; [|exact Hrun]. eapply sound_perform; eassumption.
Qed.

Lemma reachable_sound (world : FS) (rs : list request) s :
  perform_all rs (initial world) = Some (tt, s) -> sound s.
Proof. apply sound_perform_all, sound_initial. Qed.

End WithFilesystem.

End Sessions.

(** ** The entries of the map *)

Module Entries.

Import Path Monad FileSystem TextFacts NameFacts FindFacts Paths Effects Sessions.

Section WithFilesystem.

Context {FS : Type} {std_fs : Fs.StdFilesystem FS}.

Implicit Types (s : State FS) (name : string) (h : Handle) (r : request).

(** *** Every way the acquisition members return *)

Lemma get_storage_outcomes name s res s' :
  get_storage name s = Some (res, s') ->
  is_Some (logger s)
  /\ let p := storages_path s // name in
     (has_error s = true /\ res = None
      /\ s' = add_log (Log.Error, handle s, Log.DisabledForAllMods) s)
     \/ (has_error s = false /\ accepted name = false /\ res = None
         /\ s' = add_log (Log.Error, handle s, Log.SeeDocumentation)
                   (add_log (Log.Error, handle s, Log.NameNotAllowed name) s))
     \/ (has_error s = false /\ accepted name = true
         /\ exists h, find_in (storages s) name = Some h /\ res = None
              /\ s' = add_log (Log.Error, handle s, Log.SeveralTimes name)
                        (set_objects
                           (alter Storage.revoke_permission h (objects s)) s))
     \/ (has_error s = false /\ accepted name = true
         /\ find_in (storages s) name = None
         /\ exists (b : bool) w cs,
              request_directory p s = Some (b, with_world w cs s)
              /\ (cs = [Fs.Exists p] \/ cs = [Fs.Exists p; Fs.CreateDirectory p])
              /\ if b then
                   res = Some (length (objects s))
                   /\ s' = add_log (Log.Info, handle s, Log.AccessGranted name)
                             (set_storages
                                (<[name := length (objects s)]> (storages s))
                                (set_objects
                                   (objects s ++ [Storage.make name p])
                                   (with_world w cs s)))
                 else
                   res = None
                   /\ s' = add_log
                             (Log.Error, handle s, Log.FailedCreateStorage name)
                             (with_world w cs s)).
Proof.
  intros Hrun.
  destruct (logger s) as [lg|] eqn:Hlog;
    [|rewrite get_storage_null_logger in Hrun by exact Hlog; discriminate].
  assert (is_Some (logger s)) as Hlogger by (rewrite Hlog; eauto).
  split; [eauto|]. intros p.
  destruct (has_error s) eqn:Herr.
  { rewrite get_storage_disabled in Hrun by assumption.
    injection Hrun as <- <-. left. auto. }
  destruct (accepted name) eqn:Hacc.
  2: { rewrite get_storage_rejected in Hrun by assumption.
       injection Hrun as <- <-. right. left. auto. }
  destruct (find_in (storages s) name) as [h|] eqn:Hfind.
  { rewrite (get_storage_conflict name h) in Hrun by assumption.
    injection Hrun as <- <-. right. right. left. eauto 10. }
  destruct (request_directory_runs p s) as (b & w & cs & Hreq & Hcs).
  right. right. right. split_and!; try reflexivity.
  exists b, w, cs. split; [exact Hreq|]. split; [exact Hcs|].
  destruct b.
  - rewrite (get_storage_granted name s w cs) in Hrun by assumption.
    injection Hrun as <- <-. auto.
  - rewrite (get_storage_not_provisioned name s w cs) in Hrun by assumption.
    injection Hrun as <- <-. auto.
Qed.

Lemma get_shared_storage_outcomes s res s' :
  get_shared_storage s = Some (res, s') ->
  is_Some (logger s)
  /\ let p := storages_path s // "shared" in
     (has_error s = true /\ res = None
      /\ s' = add_log (Log.Error, handle s, Log.Disabled) s)
     \/ (has_error s = false
         /\ exists h, find_in (storages s) "shared" = Some h /\ res = Some h
              /\ s' = add_log (Log.Info, handle s, Log.SharedGranted) s)
     \/ (has_error s = false
         /\ find_in (storages s) "shared" = None
         /\ exists (b : bool) w cs,
              request_directory p s = Some (b, with_world w cs s)
              /\ (cs = [Fs.Exists p] \/ cs = [Fs.Exists p; Fs.CreateDirectory p])
              /\ if b then
                   res = Some (length (objects s))
                   /\ s' = add_log (Log.Info, handle s, Log.SharedGranted)
                             (set_storages
                                (<["shared" := length (objects s)]> (storages s))
                                (set_objects
                                   (objects s ++ [Storage.make "shared" p])
                                   (with_world w cs s)))
                 else
                   res = None
                   /\ s' = add_log (Log.Error, handle s, Log.FailedCreateShared)
                             (with_world w cs s)).
Proof.
  intros Hrun.
  destruct (logger s) as [lg|] eqn:Hlog;
    [|rewrite get_shared_storage_null_logger in Hrun by exact Hlog;
      discriminate].
  assert (is_Some (logger s)) as Hlogger by (rewrite Hlog; eauto).
  split; [eauto|]. intros p.
  destruct (has_error s) eqn:Herr.
  { rewrite get_shared_storage_disabled in Hrun by assumption.
    injection Hrun as <- <-. left. auto. }
  destruct (find_in (storages s) "shared") as [h|] eqn:Hfind.
  { rewrite (get_shared_storage_again h) in Hrun by assumption.
    injection Hrun as <- <-. right. left. eauto 10. }
  destruct (request_directory_runs p s) as (b & w & cs & Hreq & Hcs).
  right. right. split_and!; try reflexivity.
  exists b, w, cs. split; [exact Hreq|]. split; [exact Hcs|].
  destruct b.
  - rewrite (get_shared_storage_granted s w cs) in Hrun by assumption.
    injection Hrun as <- <-. auto.
  - rewrite (get_shared_storage_not_provisioned s w cs) in Hrun by assumption.
    injection Hrun as <- <-. auto.
Qed.

(** *** What every reachable state keeps *)

Lemma entries_bound_initial (world : FS) : entries_bound (initial world).
Proof.
  unfold entries_bound, initial. simpl. split_and!.
  - intros k h Hk. rewrite lookup_empty in Hk. discriminate.
  - intros k [h Hk]. rewrite lookup_empty in Hk. discriminate.
  - intros h Hk. rewrite lookup_empty in Hk. discriminate.
Qed.

(** States that differ in neither map nor objects are bound alike. *)
Lemma entries_bound_same s s' :
  storages s' = storages s -> objects s' = objects s ->
  entries_bound s -> entries_bound s'.
Proof.
  unfold entries_bound, is_active. intros -> ->. auto.
Qed.

(** Revoking the handle found for an accepted name leaves every entry
    bound, and does not reach the entry of the shared storage. *)
Lemma entries_bound_revoke name h s s' :
  accepted name = true -> find_in (storages s) name = Some h ->
  storages s' = storages s ->
  objects s' = alter Storage.revoke_permission h (objects s) ->
  entries_bound s -> entries_bound s'.
Proof.
  intros Hacc Hfind Hst Hob (Hbound & Hkeys & Hshared).
  unfold entries_bound, is_active. rewrite Hst, Hob. split_and!.
  - intros k h' Hk. destruct (Hbound k h' Hk) as (o & Ho & Hn & Hp).
    destruct (decide (h = h')) as [<-|Hne].
    + exists (Storage.revoke_permission o).
      rewrite list_lookup_alter_eq, Ho. auto.
    + exists o. rewrite list_lookup_alter_ne by exact Hne. auto.
  - exact Hkeys.
  - intros h' Hk.
    destruct (decide (h = h')) as [<-|Hne];
      [|rewrite list_lookup_alter_ne by exact Hne; apply Hshared, Hk].
    exfalso.
    destruct (find_in_Some _ _ _ Hfind) as (k & Hk' & Heq).
    destruct (Hbound k h Hk') as (o & Ho & Hn & _).
    destruct (Hbound "shared" h Hk) as (o' & Ho' & Hn' & _).
    assert (k = "shared") as -> by congruence.
    rewrite equals_insensitive_sym in Heq.
    rewrite (not_accepted_shared name Heq) in Hacc. discriminate.
Qed.

(** A new entry for a new object keeps every entry bound, when the name is
    accepted or is the literal "shared". *)
Lemma entries_bound_insert name (root : path) s s' :
  accepted name = true \/ name = "shared" ->
  sound s ->
  storages s' = <[name := length (objects s)]> (storages s) ->
  objects s' = objects s ++ [Storage.make name (root // name)] ->
  entries_bound s -> entries_bound s'.
Proof.
  intros Hname (_ & Hvalid & _) Hst Hob (Hbound & Hkeys & Hshared).
  assert (forall h o, objects s !! h = Some o -> objects s' !! h = Some o)
    as Hold.
  { intros h o Ho. rewrite Hob. apply lookup_app_l_Some, Ho. }
  assert (objects s' !! length (objects s)
          = Some (Storage.make name (root // name))) as Hnew.
  { rewrite Hob. apply list_lookup_middle. reflexivity. }
  unfold entries_bound, is_active. rewrite Hst. split_and!.
  - intros k h Hk. destruct (decide (name = k)) as [<-|Hne].
    + rewrite lookup_insert_eq in Hk. injection Hk as <-.
      eexists. split; [exact Hnew|]. simpl. split; [reflexivity|].
      unfold Path.append. apply last_snoc.
    + rewrite lookup_insert_ne in Hk by exact Hne.
      destruct (Hbound k h Hk) as (o & Ho & Hn & Hp). eauto.
  - intros k Hk. destruct (decide (name = k)) as [<-|Hne]; [exact Hname|].
    rewrite lookup_insert_ne in Hk by exact Hne. auto.
  - intros h Hk. destruct (decide (name = "shared")) as [->|Hne].
    + rewrite lookup_insert_eq in Hk. injection Hk as <-.
      rewrite Hnew. reflexivity.
    + rewrite lookup_insert_ne in Hk by exact Hne.
      pose proof (Hshared h Hk) as Hact. unfold is_active in Hact.
      destruct (objects s !! h) as [o|] eqn:Ho; [|discriminate].
      rewrite (Hold h o Ho). exact Hact.
Qed.

Lemma entries_bound_perform r s s' :
  sound s -> entries_bound s -> perform r s = Some (tt, s') ->
  entries_bound s'.
Proof.
  intros Hs Hb Hrun. destruct r as [p_handle [lg|]| |name|]; simpl in Hrun.
  - destruct (load_frame p_handle lg s)
      as (s1 & cs & Hload & _ & _ & _ & _ & Hst & Hob & _).
    rewrite Hload in Hrun. injection Hrun as <-.
    eapply entries_bound_same; eassumption.
  - rewrite load_null_logger in Hrun. discriminate.
  - destruct (logger s) as [lg|] eqn:Hlog;
      [|rewrite unload_null_logger in Hrun by exact Hlog; discriminate].
    rewrite unload_runs in Hrun by (rewrite Hlog; eauto).
    injection Hrun as <-. unfold entries_bound. simpl. split_and!.
    + intros k h Hk. rewrite lookup_empty in Hk. discriminate.
    + intros k [h Hk]. rewrite lookup_empty in Hk. discriminate.
    + intros h Hk. rewrite lookup_empty in Hk. discriminate.
  - unfold bind, ret in Hrun.
    destruct (get_storage name s) as [[res s1]|] eqn:Hget; [|discriminate].
    injection Hrun as <-.
    destruct (get_storage_outcomes name s res s1 Hget) as (_ & Hcases).
    destruct Hcases
      as [(_ & _ & ->) | [(_ & _ & _ & ->) | [(_ & Hacc & h & Hfind & _ & ->)
         | (_ & Hacc & Hfind & b & w & cs & _ & _ & Hres)]]].
    + eapply entries_bound_same; [..|exact Hb]; reflexivity.
    + eapply entries_bound_same; [..|exact Hb]; reflexivity.
    + eapply (entries_bound_revoke name h s); try eassumption; reflexivity.
    + destruct b; destruct Hres as (_ & ->).
      * eapply (entries_bound_insert name (storages_path s) s);
          try eassumption; try reflexivity. left. exact Hacc.
      * eapply entries_bound_same; [..|exact Hb]; reflexivity.
  - unfold bind, ret in Hrun.
    destruct (get_shared_storage s) as [[res s1]|] eqn:Hget; [|discriminate].
    injection Hrun as <-.
    destruct (get_shared_storage_outcomes s res s1 Hget) as (_ & Hcases).
    destruct Hcases
      as [(_ & _ & ->) | [(_ & h & _ & _ & ->)
         | (_ & Hfind & b & w & cs & _ & _ & Hres)]].
    + eapply entries_bound_same; [..|exact Hb]; reflexivity.
    + eapply entries_bound_same; [..|exact Hb]; reflexivity.
    + destruct b; destruct Hres as (_ & ->).
      * eapply (entries_bound_insert "shared" (storages_path s) s);
          try eassumption; try reflexivity. right. reflexivity.
      * eapply entries_bound_same; [..|exact Hb]; reflexivity.
Qed.

Lemma reachable_entries_bound (world : FS) (rs : list request) s :
  perform_all rs (initial world) = Some (tt, s) -> entries_bound s.
Proof.
  assert (forall rs s0 s1,
            sound s0 -> entries_bound s0 ->
            perform_all rs s0 = Some (tt, s1) -> entries_bound s1) as Hall.
  { clear. intros rs. induction rs as [|r rs IH]; intros s0 s1 Hs Hb Hrun;
      simpl in Hrun.
    - injection Hrun as <-. exact Hb.
    - unfold bind in Hrun.
      destruct (perform r s0) as [[[] s2]|] eqn:Hstep; [|discriminate].
      eapply (IH s2); [| |exact Hrun].
      + eapply sound_perform; eassumption.
      + eapply entries_bound_perform; eassumption. }
  apply Hall; [apply sound_initial|apply entries_bound_initial].
Qed.

(** *** Where the objects are bound *)

Lemma bound_below_storages_acquisition r s s' :
  is_acquisition r = true ->
  bound_below_storages s -> perform r s = Some (tt, s') ->
  bound_below_storages s'.
Proof.
  intros Hr Hb Hrun.
  destruct (acquisition_summary r s s' Hr Hrun)
    as (_ & (_ & _ & _ & _ & Hroot) & _ & Hev & name & Hst).
  intros k h Hk. rewrite Hroot.
  assert (forall h0, storages s !! k = Some h0 ->
            exists o, objects s' !! h0 = Some o
              /\ Storage.path o = storages_path s // k) as Hold.
  { intros h0 Hk0. destruct (Hb k h0 Hk0) as (o & Ho & Hp).
    destruct (Hev h0 o Ho) as (o' & Ho' & _ & Hp' & _).
    exists o'. split; [exact Ho'|congruence]. }
  destruct Hst as [Heq | (Hnone & Heq & Hnew)]; rewrite Heq in Hk.
  - apply Hold, Hk.
  - destruct (decide (name = k)) as [<-|Hne].
    + rewrite lookup_insert_eq in Hk. injection Hk as <-.
      rewrite Hnew, list_lookup_middle by reflexivity. eauto.
    + rewrite lookup_insert_ne in Hk by exact Hne. apply Hold, Hk.
Qed.

(** From an empty map, acquisitions bind every object below the present
    [storages_path]. *)
Lemma bound_below_storages_session (rs : list request) s0 s :
  storages s0 = ∅ -> forallb is_acquisition rs = true ->
  perform_all rs s0 = Some (tt, s) -> bound_below_storages s.
Proof.
  intros Hempty.
  assert (bound_below_storages s0) as Hb.
  { intros k h Hk. rewrite Hempty, lookup_empty in Hk. discriminate. }
  clear Hempty. revert s0 Hb.
  induction rs as [|r rs IH]; intros s0 Hb Hrs Hrun; simpl in *.
  - injection Hrun as <-. exact Hb.
  - apply andb_prop in Hrs as [Hr Hrs]. unfold bind in Hrun.
    destruct (perform r s0) as [[[] s1]|] eqn:Hstep; [|discriminate].
    apply (IH s1); [|exact Hrs|exact Hrun].
    eapply bound_below_storages_acquisition; eassumption.
Qed.

End WithFilesystem.

End Entries.

(** ** The acquisition protocol *)

Module Protocol.

Import Path Monad FileSystem TextFacts NameFacts FindFacts Paths Effects Sessions.
Import Entries.

Section WithFilesystem.

Context {FS : Type} {std_fs : Fs.StdFilesystem FS}.

Implicit Types (s : State FS) (name : string) (h : Handle) (r : request).

(** *** Names that are refused *)

(** C3. In an enabled registry, [get_storage] refuses every name that is not
    made of 3 to 24 ASCII letters and every name equal to "shared" up to
    case: it returns the null handle, reports that the name is not allowed
    (the failure the specification calls InvalidName), makes no call to the
    filesystem, so creates no directory, and leaves the map of storages and
    the storage objects as they were. *)
Theorem get_storage_invalid_name s name :
  has_error s = false -> is_Some (logger s) ->
  letters_3_to_24 name = false \/ Text.equals_insensitive name "shared" = true ->
  exists s',
    get_storage name s = Some (None, s')
    /\ log s' = log s ++ [(Log.Error, handle s, Log.NameNotAllowed name);
                          (Log.Error, handle s, Log.SeeDocumentation)]
    /\ fs s' = fs s /\ fs_calls s' = fs_calls s
    /\ storages s' = storages s /\ objects s' = objects s.
Proof.
  intros Herr Hlog Hname.
  assert (accepted name = false) as Hacc.
  { destruct Hname as [Hrule | Hshared].
    - unfold accepted. rewrite regex_match_letters_3_to_24, Hrule. reflexivity.
    - apply not_accepted_shared, Hshared. }
  rewrite get_storage_rejected by assumption.
  eexists. split; [reflexivity|]. simpl.
  rewrite <- app_assoc. auto 10.
Qed.

(** *** A disabled registry *)

(** After a failed [load] the registry is disabled and still has its logger:
    both acquisition members then return the null handle at once, report
    that the registry is disabled, and change nothing else. *)
Lemma disabled_with_logger s name :
  has_error s = true -> is_Some (logger s) ->
  get_storage name s
  = Some (None, add_log (Log.Error, handle s, Log.DisabledForAllMods) s)
  /\ get_shared_storage s
     = Some (None, add_log (Log.Error, handle s, Log.Disabled) s).
Proof.
  intros Herr Hlog. split.
  - apply get_storage_disabled; assumption.
  - apply get_shared_storage_disabled; assumption.
Qed.

(** C5. Before [load] and after [unload] the registry is disabled, but
    [logger] is the null pointer there, and the first thing either
    acquisition member does in a disabled registry is to write to it: the
    call does not fail with ServiceDisabled, it is undefined. *)
Theorem disabled_without_logger (world : FS) p_handle (lg : Logger) name :
  has_error (initial world) = true
  /\ get_storage name (initial world) = None
  /\ get_shared_storage (initial world) = None
  /\ exists s,
       perform_all [Load p_handle (Some lg); Unload] (initial world)
       = Some (tt, s)
       /\ has_error s = true
       /\ get_storage name s = None
       /\ get_shared_storage s = None.
Proof.
  split; [reflexivity|].
  split; [apply get_storage_null_logger; reflexivity|].
  split; [apply get_shared_storage_null_logger; reflexivity|].
  simpl. unfold bind, ret.
  destruct (load_frame p_handle lg (initial world))
    as (s1 & cs & -> & _ & Hlog & _).
  rewrite unload_runs by (rewrite Hlog; eauto).
  eexists. split; [reflexivity|]. split; [reflexivity|].
  split; [apply get_storage_null_logger|apply get_shared_storage_null_logger];
    reflexivity.
Qed.

(** *** One handle per name *)

(** C2. In every state reached from namespace scope by [load],
    [get_storage], [get_shared_storage] and [unload] called in any order,
    no two keys of the map of storages are equal up to case, so the map
    holds at most one handle for a name, whatever its casing; and a request
    gives a key of the map a new handle only when no key of the map equals
    it up to case. *)
Theorem one_handle_per_name (world : FS) (rs : list request) s :
  perform_all rs (initial world) = Some (tt, s) ->
  (forall k1 k2 : string,
     is_Some (storages s !! k1) -> is_Some (storages s !! k2) ->
     Text.equals_insensitive k1 k2 = true -> k1 = k2)
  /\ (forall name (k1 k2 : string) h1 h2,
        storages s !! k1 = Some h1 -> storages s !! k2 = Some h2 ->
        Text.equals_insensitive k1 name = true ->
        Text.equals_insensitive k2 name = true ->
        k1 = k2 /\ h1 = h2)
  /\ (forall r s' (k : string) h,
        perform r s = Some (tt, s') ->
        storages s' !! k = Some h -> storages s !! k <> Some h ->
        forall k' : string,
          is_Some (storages s !! k') -> Text.equals_insensitive k' k = false).
Proof.
  intros Hreach. pose proof (reachable_sound world rs s Hreach) as Hs.
  destruct Hs as (Hm & _).
  split; [exact Hm|]. split.
  - intros name k1 k2 h1 h2 H1 H2 E1 E2.
    assert (k1 = k2) as <-.
    { apply Hm; eauto. eapply equals_insensitive_trans; [exact E1|].
      rewrite equals_insensitive_sym. exact E2. }
    split; [reflexivity|congruence].
  - intros r s' k h Hrun Hk' Hk.
    destruct r as [p_handle [lg|]| |name|].
    + simpl in Hrun.
      destruct (load_frame p_handle lg s)
        as (s1 & cs & Hload & _ & _ & _ & _ & Hst & _).
      rewrite Hload in Hrun. injection Hrun as <-.
      rewrite Hst in Hk'. contradiction.
    + simpl in Hrun. rewrite load_null_logger in Hrun. discriminate.
    + simpl in Hrun.
      destruct (logger s) as [lg|] eqn:Hlog;
        [|rewrite unload_null_logger in Hrun by exact Hlog; discriminate].
      rewrite unload_runs in Hrun by (rewrite Hlog; eauto).
      injection Hrun as <-. simpl in Hk'.
      rewrite lookup_empty in Hk'. discriminate.
    + destruct (acquisition_summary (GetStorage name) s s' eq_refl Hrun)
        as (_ & _ & _ & _ & n & [Heq | (Hnone & Heq & _)]);
        rewrite Heq in Hk'; [contradiction|].
      destruct (decide (n = k)) as [<-|Hne];
        [|rewrite lookup_insert_ne in Hk' by exact Hne; contradiction].
      intros k' Hin. apply (find_in_None _ _ Hnone k' Hin).
    + destruct (acquisition_summary GetSharedStorage s s' eq_refl Hrun)
        as (_ & _ & _ & _ & n & [Heq | (Hnone & Heq & _)]);
        rewrite Heq in Hk'; [contradiction|].
      destruct (decide (n = k)) as [<-|Hne];
        [|rewrite lookup_insert_ne in Hk' by exact Hne; contradiction].
      intros k' Hin. apply (find_in_None _ _ Hnone k' Hin).
Qed.

(** *** A second request for a name *)

Lemma revoke_twice s h :
  is_Some (objects s !! h) ->
  Storage.revoked
    <$> alter Storage.revoke_permission h (objects s) !! h = Some true.
Proof.
  intros [o Ho]. rewrite list_lookup_alter_eq, Ho. reflexivity.
Qed.

(** C1, amended. In a reachable, enabled state, for every name that passes
    the naming rule and equals, up to case, a key of the map of storages:
    [get_storage] revokes the handle registered under that key, returns the
    null handle and reports the repeated access (the failure the
    specification calls AlreadyAcquired), and leaves the map as it was.
    After any further acquisitions, a request for the name in any casing
    goes the same way: the key still maps to the same handle, the handle is
    still revoked, the request reports the repeated access, returns the
    null handle and creates no storage object. *)
Theorem get_storage_conflict_is_permanent
    (world : FS) (rs : list request) s name (k : string) h :
  perform_all rs (initial world) = Some (tt, s) ->
  has_error s = false ->
  accepted name = true ->
  storages s !! k = Some h ->
  Text.equals_insensitive k name = true ->
  exists s1,
    get_storage name s = Some (None, s1)
    /\ log s1 = log s ++ [(Log.Error, handle s, Log.SeveralTimes name)]
    /\ is_revoked s1 h
    /\ storages s1 = storages s
    /\ fs_calls s1 = fs_calls s
    /\ forall (later : list request) (name' : string),
         forallb is_acquisition later = true ->
         Text.equals_insensitive name' name = true ->
         exists s2 s3,
           perform_all later s1 = Some (tt, s2)
           /\ get_storage name' s2 = Some (None, s3)
           /\ log s3 = log s2 ++ [(Log.Error, handle s2, Log.SeveralTimes name')]
           /\ storages s3 !! k = Some h
           /\ is_revoked s3 h
           /\ length (objects s3) = length (objects s2).
Proof.
  intros Hreach Herr Hacc Hk Heq.
  destruct (reachable_sound world rs s Hreach) as (Hm & Hobj & Hen & _).
  pose proof (Hen Herr) as Hlog.
  pose proof (find_in_unique _ _ _ _ Hm Hk Heq) as Hfind.
  rewrite (get_storage_conflict name h) by assumption.
  eexists. split; [reflexivity|].
  split; [reflexivity|].
  split; [apply revoke_twice; eauto|].
  split; [reflexivity|]. split; [reflexivity|].
  intros later name' Hlater Heq'.
  match goal with
  | |- context [perform_all later ?x] => set (s1 := x)
  end.
  destruct (acquisitions_run later s1 Hlater Hlog) as (s2 & Hrun).
  destruct (acquisitions_summary later s1 s2 Hlater Hrun)
    as ((_ & Hl & He & _) & Hev & Hkeep & Hdist & _).
  assert (is_Some (logger s2)) as Hlog2 by (rewrite Hl; exact Hlog).
  assert (has_error s2 = false) as Herr2 by (rewrite He; exact Herr).
  assert (accepted name' = true) as Hacc'.
  { rewrite (accepted_congr name' name Heq'). exact Hacc. }
  assert (storages s2 !! k = Some h) as Hk2 by (apply Hkeep; exact Hk).
  assert (find_in (storages s2) name' = Some h) as Hfind2.
  { apply (find_in_unique _ _ k); [apply Hdist; exact Hm|exact Hk2|].
    eapply equals_insensitive_trans; [exact Heq|].
    rewrite equals_insensitive_sym. exact Heq'. }
  exists s2. eexists. split; [exact Hrun|].
  rewrite (get_storage_conflict name' h) by assumption.
  split; [reflexivity|]. split; [reflexivity|].
  split; [exact Hk2|].
  split; [|apply length_alter].
  apply revoke_twice.
  assert (is_revoked s2 h) as Hrev.
  { apply (objects_evolve_revoked s1 s2 h Hev). apply revoke_twice. eauto. }
  unfold is_revoked in Hrev. destruct (objects s2 !! h); [eauto|discriminate].
Qed.

(** *** A first request for a name *)

(** C4. In a reachable, enabled state, for a name that passes the naming
    rule and that the lookup does not find, when the directory can be
    provisioned: [get_storage] returns a handle to a new, active storage
    object bound to the name and to the path [storages_path / name], and
    registers it in the map under the name exactly as the caller wrote it.
    After any further acquisitions, a request for the name in any casing
    finds that handle under that one key, and takes the repeated-access
    path: no second entry, no call to the filesystem, no new object. *)
Theorem first_get_storage_registers
    (world : FS) (rs : list request) s name :
  perform_all rs (initial world) = Some (tt, s) ->
  has_error s = false ->
  accepted name = true ->
  find_in (storages s) name = None ->
  fst <$> request_directory (storages_path s // name) s = Some true ->
  exists h s1,
    get_storage name s = Some (Some h, s1)
    /\ objects s !! h = None
    /\ objects s1 !! h = Some (Storage.make name (storages_path s // name))
    /\ is_active s1 h
    /\ storages s1 = <[name := h]> (storages s)
    /\ forall (later : list request) (name' : string),
         forallb is_acquisition later = true ->
         Text.equals_insensitive name' name = true ->
         exists s2 s3,
           perform_all later s1 = Some (tt, s2)
           /\ find_in (storages s2) name' = Some h
           /\ (forall k : string,
                 is_Some (storages s2 !! k) ->
                 Text.equals_insensitive k name' = true -> k = name)
           /\ get_storage name' s2 = Some (None, s3)
           /\ storages s3 = storages s2
           /\ fs_calls s3 = fs_calls s2
           /\ length (objects s3) = length (objects s2).
Proof.
  intros Hreach Herr Hacc Hfind Hdir.
  pose proof (reachable_sound world rs s Hreach) as Hs.
  pose proof Hs as (Hm & Hobj & Hen & _).
  pose proof (Hen Herr) as Hlog.
  destruct (request_directory_runs (storages_path s // name) s)
    as (b & w & cs & Hreq & _).
  rewrite Hreq in Hdir. injection Hdir as ->.
  pose proof (get_storage_granted name s w cs Herr Hlog Hacc Hfind Hreq) as Hget.
  rewrite Hget. eexists _, _. split; [reflexivity|].
  match goal with |- context [perform_all _ ?x] => set (s1 := x) in * end.
  split; [apply lookup_ge_None_2; reflexivity|].
  assert (objects s1 !! length (objects s)
          = Some (Storage.make name (storages_path s // name))) as Hnew.
  { subst s1. simpl. apply list_lookup_middle. reflexivity. }
  split; [exact Hnew|].
  split; [unfold is_active; rewrite Hnew; reflexivity|].
  split; [reflexivity|].
  intros later name' Hlater Heq'.
  assert (sound s1) as Hs1.
  { apply (sound_perform (GetStorage name) s s1 Hs).
    simpl. unfold bind, ret. rewrite Hget. reflexivity. }
  destruct (acquisitions_run later s1 Hlater Hlog) as (s2 & Hrun).
  destruct (acquisitions_summary later s1 s2 Hlater Hrun)
    as ((_ & Hl & He & _) & _ & Hkeep & Hdist & _).
  destruct Hs1 as (Hm1 & _).
  pose proof (Hdist Hm1) as Hm2.
  assert (storages s2 !! name = Some (length (objects s))) as Hk2.
  { apply Hkeep. subst s1. simpl. apply lookup_insert_eq. }
  assert (Text.equals_insensitive name name' = true) as Heq.
  { rewrite equals_insensitive_sym. exact Heq'. }
  assert (find_in (storages s2) name' = Some (length (objects s))) as Hfind2.
  { apply (find_in_unique _ _ name); assumption. }
  exists s2. eexists. split; [exact Hrun|]. split; [exact Hfind2|].
  split.
  { intros k Hin Hk. apply Hm2; [exact Hin|eauto|].
    eapply equals_insensitive_trans; eassumption. }
  rewrite (get_storage_conflict name' (length (objects s))).
  - split; [reflexivity|]. split; [reflexivity|]. split; [reflexivity|].
    apply length_alter.
  - rewrite He. exact Herr.
  - rewrite Hl. exact Hlog.
  - rewrite (accepted_congr name' name Heq'). exact Hacc.
  - exact Hfind2.
Qed.

(** *** The shared storage *)

(** Where [get_shared_storage] returned a handle, the registry is enabled
    and the lookup of "shared" finds that handle. *)
Lemma get_shared_storage_success s h s1 :
  get_shared_storage s = Some (Some h, s1) ->
  has_error s1 = false /\ is_Some (logger s1)
  /\ find_in (storages s1) "shared" = Some h.
Proof.
  intros Hrun.
  destruct (logger s) as [lg|] eqn:Hlog;
    [|rewrite get_shared_storage_null_logger in Hrun by exact Hlog;
      discriminate].
  assert (is_Some (logger s)) as Hlogger by (rewrite Hlog; eauto).
  destruct (has_error s) eqn:Herr.
  { rewrite get_shared_storage_disabled in Hrun by assumption. discriminate. }
  destruct (find_in (storages s) "shared") as [h'|] eqn:Hfind.
  { rewrite (get_shared_storage_again h') in Hrun by assumption.
    injection Hrun as -> <-. simpl. auto. }
  destruct (request_directory_runs (storages_path s // "shared") s)
    as ([] & w & cs & Hreq & _).
  - rewrite (get_shared_storage_granted s w cs) in Hrun by assumption.
    injection Hrun as <- <-. simpl. repeat split; try assumption.
    apply find_in_insert_fresh; [exact Hfind|reflexivity].
  - rewrite (get_shared_storage_not_provisioned s w cs) in Hrun by assumption.
    discriminate.
Qed.

Lemma get_shared_storage_times_again (n : nat) s h :
  has_error s = false -> is_Some (logger s) ->
  find_in (storages s) "shared" = Some h ->
  exists sn,
    get_shared_storage_times n s = Some (replicate n (Some h), sn)
    /\ storages sn = storages s /\ objects sn = objects s
    /\ fs sn = fs s /\ fs_calls sn = fs_calls s
    /\ log sn = log s ++ replicate n (Log.Info, handle s, Log.SharedGranted)
    /\ storages_path sn = storages_path s.
Proof.
  revert s. induction n as [|n IH]; intros s Herr Hlog Hfind; simpl.
  - exists s. unfold ret. rewrite app_nil_r. auto 10.
  - unfold bind, ret.
    rewrite (get_shared_storage_again h) by assumption.
    destruct (IH (add_log (Log.Info, handle s, Log.SharedGranted) s))
      as (sn & -> & Hst & Hob & Hfs & Hcalls & Hlg & Hroot); try assumption.
    exists sn. split; [reflexivity|].
    rewrite Hst, Hob, Hfs, Hcalls, Hlg, Hroot. simpl.
    rewrite <- app_assoc. auto 10.
Qed.

(** In a reachable state, the one key equal to "shared" up to case is the
    literal "shared". *)
Lemma shared_key_is_literal s (k : string) :
  entries_bound s -> is_Some (storages s !! k) ->
  Text.equals_insensitive k "shared" = true -> k = "shared".
Proof.
  intros (_ & Hkeys & _) Hk Heq.
  destruct (Hkeys k Hk) as [Hacc | ->]; [|reflexivity].
  rewrite (not_accepted_shared k Heq) in Hacc. discriminate.
Qed.

(** C6. In a reachable state, once [get_shared_storage] has returned a
    handle, that handle is the one registered under the key "shared", the
    only key equal to "shared" up to case; the object behind it is named
    "shared", is active, and is bound to a directory called "shared": it is
    [storages_path / "shared"] when this first call created the object, and
    whenever the state was reached by acquisitions from an empty map.
    Calling [get_shared_storage] again, any number of times in a row,
    returns that same handle every time; the calls add nothing to the map,
    revoke nothing (the storage objects are as they were, so the handle
    stays bound to the same directory), and make no call to the
    filesystem; each one only reports that access was granted. *)
Theorem get_shared_storage_idempotent
    (world : FS) (rs : list request) (n : nat) s h s1 :
  perform_all rs (initial world) = Some (tt, s) ->
  get_shared_storage s = Some (Some h, s1) ->
  storages s1 !! "shared" = Some h
  /\ (forall k : string,
        is_Some (storages s1 !! k) ->
        Text.equals_insensitive k "shared" = true -> k = "shared")
  /\ exists o,
       objects s1 !! h = Some o
       /\ Storage.name o = "shared"
       /\ Storage.revoked o = false
       /\ last (Storage.path o) = Some "shared"
       /\ (find_in (storages s) "shared" = None ->
           Storage.path o = storages_path s1 // "shared")
       /\ (forall (s0 : State FS) (acquisitions : list request),
             storages s0 = ∅ ->
             forallb is_acquisition acquisitions = true ->
             perform_all acquisitions s0 = Some (tt, s) ->
             Storage.path o = storages_path s1 // "shared")
       /\ exists sn,
            get_shared_storage_times n s1 = Some (replicate n (Some h), sn)
            /\ storages sn = storages s1 /\ objects sn = objects s1
            /\ storages_path sn = storages_path s1
            /\ fs sn = fs s1 /\ fs_calls sn = fs_calls s1
            /\ log sn
               = log s1 ++ replicate n (Log.Info, handle s1, Log.SharedGranted)
            /\ find_in (storages sn) "shared" = Some h
            /\ objects sn !! h = Some o.
Proof.
  intros Hreach Hfirst.
  pose proof (reachable_sound world rs s Hreach) as Hs.
  pose proof (reachable_entries_bound world rs s Hreach) as Hb.
  assert (perform GetSharedStorage s = Some (tt, s1)) as Hstep.
  { simpl. unfold bind, ret. rewrite Hfirst. reflexivity. }
  pose proof (entries_bound_perform _ _ _ Hs Hb Hstep) as Hb1.
  destruct (get_shared_storage_success s h s1 Hfirst) as (Herr & Hlog & Hfind).
  destruct (find_in_Some _ _ _ Hfind) as (k & Hk & Heq).
  assert (k = "shared") as ->.
  { apply (shared_key_is_literal s1); eauto. }
  split; [exact Hk|].
  split; [intros k' Hk' Heq'; apply (shared_key_is_literal s1); assumption|].
  pose proof Hb1 as (Hbound & _ & Hactive).
  destruct (Hbound "shared" h Hk) as (o & Ho & Hname & Hlast).
  pose proof (Hactive h Hk) as Hact. unfold is_active in Hact.
  rewrite Ho in Hact. simpl in Hact. injection Hact as Hact.
  exists o. split_and!; try assumption.
  - intros Hnone.
    destruct (get_shared_storage_summary s (Some h) s1 Hfirst)
      as (_ & (_ & _ & _ & _ & Hroot) & _ & _ & [Hsame | (_ & Hst & Hnew)]).
    + rewrite Hsame, Hnone in Hfind. discriminate.
    + rewrite Hst, lookup_insert_eq in Hk. injection Hk as <-.
      rewrite Hnew, list_lookup_middle in Ho by reflexivity.
      injection Ho as <-. simpl. rewrite Hroot. reflexivity.
  - intros s0 acquisitions Hempty Hacq Hrun.
    pose proof (bound_below_storages_session acquisitions s0 s Hempty Hacq Hrun)
      as Hbelow.
    pose proof (bound_below_storages_acquisition GetSharedStorage s s1
                  eq_refl Hbelow Hstep) as Hbelow1.
    destruct (Hbelow1 "shared" h Hk) as (o' & Ho' & Hp). congruence.
  - destruct (get_shared_storage_times_again n s1 h Herr Hlog Hfind)
      as (sn & Hn & Hst & Hob & Hfs & Hcalls & Hlg & Hroot).
    exists sn. rewrite Hst, Hob. split_and!; assumption || reflexivity.
Qed.

(** *** A directory that cannot be created *)

(** C9. In an enabled registry, for a name that passes the naming rule and
    that the lookup does not find, when [request_directory] fails:
    [get_storage] returns the null handle and reports once that the storage
    could not be created (the failure the specification calls
    ProvisionFailed); the map and the storage objects are as they were, so
    the lookup still does not find the name; the filesystem was asked once
    whether the directory exists and at most once to create it.  A new
    request for the name returns a handle as soon as [request_directory]
    succeeds. *)
Theorem get_storage_provision_failure s name :
  has_error s = false -> is_Some (logger s) ->
  accepted name = true ->
  find_in (storages s) name = None ->
  fst <$> request_directory (storages_path s // name) s = Some false ->
  exists s1,
    get_storage name s = Some (None, s1)
    /\ log s1 = log s ++ [(Log.Error, handle s, Log.FailedCreateStorage name)]
    /\ storages s1 = storages s /\ objects s1 = objects s
    /\ find_in (storages s1) name = None
    /\ (let p := storages_path s // name in
        fs_calls s1 = fs_calls s ++ [Fs.Exists p]
        \/ fs_calls s1 = fs_calls s ++ [Fs.Exists p; Fs.CreateDirectory p])
    /\ (fst <$> request_directory (storages_path s1 // name) s1 = Some true ->
        exists h s2,
          get_storage name s1 = Some (Some h, s2)
          /\ storages s2 !! name = Some h /\ is_active s2 h).
Proof.
  intros Herr Hlog Hacc Hfind Hdir.
  destruct (request_directory_runs (storages_path s // name) s)
    as (b & w & cs & Hreq & Hcs).
  rewrite Hreq in Hdir. injection Hdir as ->.
  rewrite (get_storage_not_provisioned name s w cs) by assumption.
  eexists. split; [reflexivity|].
  match goal with |- context [get_storage name ?x] => set (s1 := x) end.
  simpl.
  split; [reflexivity|]. split; [reflexivity|]. split; [reflexivity|].
  split; [exact Hfind|].
  split; [destruct Hcs as [-> | ->]; auto|].
  intros Hdir.
  destruct (request_directory_runs (storages_path s // name) s1)
    as (b & w' & cs' & Hreq' & _).
  change (storages_path s1) with (storages_path s) in Hdir.
  rewrite Hreq' in Hdir. injection Hdir as ->.
  rewrite (get_storage_granted name s1 w' cs') by assumption.
  eexists _, _. split; [reflexivity|]. simpl.
  split; [apply lookup_insert_eq|].
  unfold is_active. simpl.
  rewrite list_lookup_middle by reflexivity. reflexivity.
Qed.

(** *** Loading and unloading *)

(** C7. Given a logger, [load] always returns.  When the storages directory
    cannot be ensured it stops there, disabled.  When it is ensured, [load]
    asks whether the legacy directory exists: on an error it stops,
    disabled; when the directory does not exist, migration has nothing to
    do and the registry is enabled; when it does, [load] makes one
    recursive copy of it into the storages directory, overwriting what is
    there, and the registry is enabled exactly when the copy reports no
    error.  No call [load] makes deletes anything, so the legacy directory
    stays in place; the map and the storage objects are not touched. *)
Theorem load_migrates_legacy_directory s p_handle (lg : Logger) :
  let game := parent_path (parent_path (Fs.absolute ["."] (fs s))) in
  let root := game // "r6" // "storages" in
  let old_path := old_path_of game in
  let options := [Fs.overwrite_existing; Fs.recursive] in
  exists s' ensured w1 cs1,
    load p_handle (Some lg) s = Some (tt, s')
    /\ request_directory root s = Some (ensured, with_world w1 cs1 s)
    /\ game_path s' = game /\ storages_path s' = root
    /\ storages s' = storages s /\ objects s' = objects s
    /\ (exists cs, fs_calls s' = fs_calls s ++ cs /\ Fs.no_removal cs)
    /\ if ensured then
         match Fs.exists_ old_path w1 with
         | (w2, (_, Some _)) =>
             has_error s' = true /\ fs s' = w2
             /\ fs_calls s' = fs_calls s ++ cs1 ++ [Fs.Exists old_path]
         | (w2, (false, None)) =>
             has_error s' = false /\ fs s' = w2
             /\ fs_calls s' = fs_calls s ++ cs1 ++ [Fs.Exists old_path]
         | (w2, (true, None)) =>
             has_error s' = Fs.is_set (Fs.copy old_path root options w2).2
             /\ fs s' = (Fs.copy old_path root options w2).1
             /\ fs_calls s' = fs_calls s ++ cs1
                              ++ [Fs.Exists old_path;
                                  Fs.Copy old_path root options]
         end
       else
         has_error s' = true /\ fs s' = w1
         /\ fs_calls s' = fs_calls s ++ cs1.
Proof.
  intros game root old_path options.
  destruct (load_cases s p_handle lg)
    as (s' & ensured & w1 & cs1 & Hload & Hreq & Hdel & _ & _ & Hg & Hr
        & Hst & Hob & Hcases).
  fold game root old_path options in Hreq, Hg, Hr, Hcases.
  exists s', ensured, w1, cs1.
  split_and!; try assumption.
  destruct ensured.
  - destruct (Fs.exists_ old_path w1) as [w2 [[] [e|]]];
      destruct Hcases as (_ & _ & ->); eexists; (split; [reflexivity|]);
      no_removal.
  - destruct Hcases as (_ & _ & ->). eauto.
Qed.

(** [is_prefix p q] says that [q] continues [p]. *)
Lemma is_prefix_app (p q : path) :
  is_prefix p q = true <-> exists rest, q = p ++ rest.
Proof.
  unfold is_prefix. rewrite bool_decide_eq_true. split.
  - intros Hp. exists (drop (length p) q).
    rewrite Hp at 1. symmetry. apply take_drop.
  - intros [rest ->]. rewrite take_app_length. reflexivity.
Qed.

(** A path that leaves [g] by [a] is not above one that leaves it by
    another component. *)
Lemma is_prefix_diverge (g p1 p2 q : path) (a b : string) :
  a <> b ->
  is_prefix (g ++ b :: p2) q = true ->
  is_prefix (g ++ a :: p1) q = false.
Proof.
  intros Hab [r2 Hq]%is_prefix_app.
  destruct (is_prefix (g ++ a :: p1) q) eqn:Hp; [|reflexivity].
  apply is_prefix_app in Hp as [r1 Hq']. rewrite Hq in Hq'.
  rewrite <- !app_assoc in Hq'. apply app_inv_head in Hq'.
  simpl in Hq'. congruence.
Qed.

(** What [unload] removes is not the storages directory nor anything in
    it. *)
Lemma legacy_apart_from_storages (game q : path) :
  is_prefix (game // "r6" // "storages") q = true ->
  Fs.deletes (Fs.RemoveAll (old_path_of game)) q = false.
Proof.
  unfold old_path_of, Path.append. simpl.
  rewrite <- !app_assoc. simpl. intros Hq.
  eapply is_prefix_diverge; [|exact Hq]. discriminate.
Qed.

(** C8. In a reachable state with a logger, [unload] returns after exactly
    one call to the filesystem, the recursive removal of the legacy
    directory, whose outcome it does not look at; the map of storages is
    then empty, the registry disabled, [handle] and [logger] null; the
    storage objects are as they were.  That removal spares the storages
    directory and everything in it.  No other request, from this state,
    makes a call that deletes anything, and revoking a handle makes no call
    to the filesystem at all. *)
Theorem unload_tears_down (world : FS) (rs : list request) s :
  perform_all rs (initial world) = Some (tt, s) ->
  is_Some (logger s) ->
  let old_path := old_path_of (game_path s) in
  exists s',
    unload s = Some (tt, s')
    /\ fs_calls s' = fs_calls s ++ [Fs.RemoveAll old_path]
    /\ fs s' = (Fs.remove_all old_path (fs s)).1
    /\ storages s' = ∅ /\ has_error s' = true
    /\ handle s' = None /\ logger s' = None
    /\ objects s' = objects s
    /\ log s' = log s ++ [(Log.Info, handle s, Log.HasBeenTerminated)]
    /\ (forall q, is_prefix (storages_path s) q = true ->
          Fs.deletes (Fs.RemoveAll old_path) q = false)
    /\ (forall r s2, r <> Unload -> perform r s = Some (tt, s2) ->
          exists cs, fs_calls s2 = fs_calls s ++ cs /\ Fs.no_removal cs)
    /\ (forall h, exists s2,
          revoke_permission h s = Some (tt, s2)
          /\ fs s2 = fs s /\ fs_calls s2 = fs_calls s).
Proof.
  intros Hreach Hlog old_path.
  destruct (reachable_sound world rs s Hreach) as (_ & _ & _ & Hpath).
  rewrite unload_runs by exact Hlog. fold old_path.
  eexists. split; [reflexivity|]. simpl.
  split_and!; try reflexivity.
  - intros q Hq. rewrite (Hpath Hlog) in Hq.
    apply legacy_apart_from_storages, Hq.
  - intros r s2 Hr Hrun. destruct r as [p_handle [lg|]| |name|].
    + simpl in Hrun.
      destruct (load_frame p_handle lg s)
        as (s1 & cs & Hload & _ & _ & _ & _ & _ & _ & Hcs & Hdel).
      rewrite Hload in Hrun. injection Hrun as <-. eauto.
    + simpl in Hrun. rewrite load_null_logger in Hrun. discriminate.
    + contradiction.
    + destruct (acquisition_summary (GetStorage name) s s2 eq_refl Hrun)
        as (_ & _ & Hcs & _). exact Hcs.
    + destruct (acquisition_summary GetSharedStorage s s2 eq_refl Hrun)
        as (_ & _ & Hcs & _). exact Hcs.
  - intros h. eexists. split; [reflexivity|]. split; reflexivity.
Qed.

End WithFilesystem.

Lemma get_storage_invalid_name_witness :
  exists s',
    get_storage "a1b" Sim.enabled = Some (None, s')
    /\ log s' = log Sim.enabled
                ++ [(Log.Error, handle Sim.enabled, Log.NameNotAllowed "a1b");
                    (Log.Error, handle Sim.enabled, Log.SeeDocumentation)]
    /\ fs s' = fs Sim.enabled /\ fs_calls s' = fs_calls Sim.enabled
    /\ storages s' = storages Sim.enabled /\ objects s' = objects Sim.enabled.
Proof.
  apply (get_storage_invalid_name Sim.enabled "a1b").
  - reflexivity.
  - eexists. reflexivity.
  - left. reflexivity.
Defined.

Lemma one_handle_per_name_witness :
  (forall k1 k2 : string,
     is_Some (storages Sim.mymod_acquired !! k1) ->
     is_Some (storages Sim.mymod_acquired !! k2) ->
     Text.equals_insensitive k1 k2 = true -> k1 = k2)
  /\ (forall name (k1 k2 : string) h1 h2,
        storages Sim.mymod_acquired !! k1 = Some h1 ->
        storages Sim.mymod_acquired !! k2 = Some h2 ->
        Text.equals_insensitive k1 name = true ->
        Text.equals_insensitive k2 name = true ->
        k1 = k2 /\ h1 = h2)
  /\ (forall r s' (k : string) h,
        perform r Sim.mymod_acquired = Some (tt, s') ->
        storages s' !! k = Some h ->
        storages Sim.mymod_acquired !! k <> Some h ->
        forall k' : string,
          is_Some (storages Sim.mymod_acquired !! k') ->
          Text.equals_insensitive k' k = false).
Proof.
  apply (one_handle_per_name Sim.fresh_disk
           [Load Sim.plugin Sim.sink; GetStorage "mymod"] Sim.mymod_acquired).
  vm_compute. reflexivity.
Defined.

(** C1 as it is written fails at the reserved name: after [load] and one
    [get_shared_storage], a handle is registered under "shared"; a
    [get_storage] for that name is refused as a name that is not allowed,
    and the handle is not revoked. *)
Lemma registered_shared_is_not_revoked :
  storages Sim.shared_acquired !! "shared" = Some 0
  /\ has_error Sim.shared_acquired = false
  /\ ~ (forall name (k : string) h,
          storages Sim.shared_acquired !! k = Some h ->
          Text.equals_insensitive k name = true ->
          exists s1,
            get_storage name Sim.shared_acquired = Some (None, s1)
            /\ log s1 = log Sim.shared_acquired
                        ++ [(Log.Error, handle Sim.shared_acquired,
                             Log.SeveralTimes name)]
            /\ is_revoked s1 h).
Proof.
  split; [reflexivity|]. split; [reflexivity|].
  intros Hclaim.
  destruct (Hclaim "shared" "shared" 0 eq_refl eq_refl) as (s1 & Hget & _ & Hrev).
  vm_compute in Hget. injection Hget as <-.
  vm_compute in Hrev. discriminate.
Qed.

Lemma get_storage_conflict_is_permanent_witness :
  exists s1 s2 s3,
    get_storage "MyMod" Sim.mymod_acquired = Some (None, s1)
    /\ is_revoked s1 0
    /\ perform_all [GetSharedStorage; GetStorage "other"] s1 = Some (tt, s2)
    /\ get_storage "MYMOD" s2 = Some (None, s3)
    /\ is_revoked s3 0.
Proof.
  destruct (get_storage_conflict_is_permanent Sim.fresh_disk
              [Load Sim.plugin Sim.sink; GetStorage "mymod"]
              Sim.mymod_acquired "MyMod" "mymod" 0)
    as (s1 & Hget & _ & Hrev & _ & _ & Hlater);
    [vm_compute; reflexivity | reflexivity | reflexivity | reflexivity
    | reflexivity |].
  destruct (Hlater [GetSharedStorage; GetStorage "other"] "MYMOD")
    as (s2 & s3 & Hrun & Hget' & _ & _ & Hrev' & _);
    [reflexivity | reflexivity |].
  exists s1, s2, s3. auto.
Defined.

Lemma first_get_storage_registers_witness :
  exists h s1 s2 s3,
    get_storage "mymod" Sim.enabled = Some (Some h, s1)
    /\ Storage.path <$> objects s1 !! h
       = Some (storages_path Sim.enabled // "mymod")
    /\ storages s1 !! "mymod" = Some h
    /\ perform_all [GetSharedStorage] s1 = Some (tt, s2)
    /\ find_in (storages s2) "MyMod" = Some h
    /\ get_storage "MyMod" s2 = Some (None, s3)
    /\ storages s3 = storages s2.
Proof.
  destruct (first_get_storage_registers Sim.fresh_disk
              [Load Sim.plugin Sim.sink] Sim.enabled "mymod")
    as (h & s1 & Hget & _ & Hobj & _ & Hst & Hlater);
    [vm_compute; reflexivity | reflexivity | reflexivity
    | vm_compute; reflexivity | vm_compute; reflexivity |].
  destruct (Hlater [GetSharedStorage] "MyMod")
    as (s2 & s3 & Hrun & Hfind & _ & Hget' & Hsame & _);
    [reflexivity | reflexivity |].
  exists h, s1, s2, s3. rewrite Hobj, Hst, lookup_insert_eq. auto 10.
Defined.

Lemma get_shared_storage_idempotent_witness :
  exists h s1 o sn,
    get_shared_storage Sim.enabled = Some (Some h, s1)
    /\ storages s1 !! "shared" = Some h
    /\ objects s1 !! h = Some o
    /\ Storage.path o = storages_path s1 // "shared"
    /\ get_shared_storage_times 3 s1 = Some ([Some h; Some h; Some h], sn)
    /\ storages sn = storages s1 /\ objects sn = objects s1
    /\ fs_calls sn = fs_calls s1.
Proof.
  destruct (get_shared_storage Sim.enabled) as [[[h|] s1]|] eqn:Hfirst;
    try (vm_compute in Hfirst; discriminate).
  destruct (get_shared_storage_idempotent Sim.fresh_disk
              [Load Sim.plugin Sim.sink] 3 Sim.enabled h s1)
    as (Hk & _ & o & Ho & _ & _ & _ & Hpath & _ & sn & Hn & Hst & Hob & _
        & _ & Hcalls & _);
    [vm_compute; reflexivity | exact Hfirst |].
  exists h, s1, o, sn. split_and!; try assumption; try reflexivity.
  apply Hpath. vm_compute. reflexivity.
Defined.

Lemma get_storage_provision_failure_witness :
  exists s1 h s2,
    get_storage "mymod" Sim.flaky = Some (None, s1)
    /\ storages s1 = storages Sim.flaky
    /\ get_storage "mymod" s1 = Some (Some h, s2)
    /\ storages s2 !! "mymod" = Some h.
Proof.
  destruct (get_storage_provision_failure Sim.flaky "mymod")
    as (s1 & Hget & _ & Hst & _ & _ & _ & Hretry);
    [reflexivity | eexists; reflexivity | reflexivity
    | vm_compute; reflexivity | vm_compute; reflexivity |].
  destruct Hretry as (h & s2 & Hget' & Hk & _).
  { injection Hget as <-. vm_compute. reflexivity. }
  exists s1, h, s2. auto.
Defined.

Lemma unload_tears_down_witness :
  exists s',
    unload Sim.mymod_acquired = Some (tt, s')
    /\ fs_calls s'
       = fs_calls Sim.mymod_acquired
         ++ [Fs.RemoveAll (old_path_of (game_path Sim.mymod_acquired))]
    /\ storages s' = ∅ /\ has_error s' = true
    /\ handle s' = None /\ logger s' = None.
Proof.
  destruct (unload_tears_down Sim.fresh_disk
              [Load Sim.plugin Sim.sink; GetStorage "mymod"]
              Sim.mymod_acquired)
    as (s' & Hrun & Hcalls & _ & Hst & Herr & Hh & Hl & _);
    [vm_compute; reflexivity | eexists; reflexivity |].
  exists s'. auto 10.
Defined.

End Protocol.

(** ** Further behaviour of the class *)

Module Behaviour.

Import Path Monad FileSystem TextFacts NameFacts FindFacts Paths Effects Sessions.
Import Entries Protocol.

Section WithFilesystem.

Context {FS : Type} {std_fs : Fs.StdFilesystem FS}.

Implicit Types (s : State FS) (name : string) (h : Handle) (r : request).

(** *** When the members are defined *)

(** X1. Each member of the class hits the null [logger] exactly when there
    is no logger to write to: [get_storage], [get_shared_storage] and
    [unload] are undefined exactly in the states where [logger] is null,
    and [load] exactly when it is handed a null logger.  With a logger,
    every member returns, whatever the filesystem does. *)
Theorem undefined_iff_null_logger s name p_handle p_logger :
  (get_storage name s = None <-> logger s = None)
  /\ (get_shared_storage s = None <-> logger s = None)
  /\ (unload s = None <-> logger s = None)
  /\ (load p_handle p_logger s = None <-> p_logger = None).
Proof.
  assert (forall lg : option Logger, ~ is_Some lg -> lg = None) as Hnone.
  { intros [lg|] Hno; [exfalso; apply Hno; eauto|reflexivity]. }
  split_and!; split.
  - intros Hrun. apply Hnone. intros Hlog.
    destruct (get_storage_returns name s Hlog) as (res & s' & Heq). congruence.
  - apply get_storage_null_logger.
  - intros Hrun. apply Hnone. intros Hlog.
    destruct (get_shared_storage_returns s Hlog) as (res & s' & Heq).
    congruence.
  - apply get_shared_storage_null_logger.
  - intros Hrun. apply Hnone. intros Hlog.
    rewrite unload_runs in Hrun by exact Hlog. discriminate.
  - apply unload_null_logger.
  - intros Hrun. destruct p_logger as [lg|]; [|reflexivity].
    destruct (load_frame p_handle lg s) as (s' & cs & Heq & _). congruence.
  - intros ->. apply load_null_logger.
Qed.

(** *** What a returned handle tells *)

(** X2. [get_storage] returns a handle only from an enabled registry, for a
    name of 3 to 24 ASCII letters that is not "shared" in any casing and
    that the lookup did not find.  The handle is the address of a new
    object, active, named as the caller wrote the name and bound to
    [storages_path / name]; it is registered under that name, and the one
    line logged says that access was granted. *)
Theorem get_storage_handle_inversion name s h s' :
  get_storage name s = Some (Some h, s') ->
  has_error s = false
  /\ letters_3_to_24 name = true
  /\ Text.equals_insensitive name "shared" = false
  /\ find_in (storages s) name = None
  /\ objects s !! h = None
  /\ objects s' = objects s ++ [Storage.make name (storages_path s // name)]
  /\ objects s' !! h = Some (Storage.make name (storages_path s // name))
  /\ storages s' = <[name := h]> (storages s)
  /\ log s' = log s ++ [(Log.Info, handle s, Log.AccessGranted name)].
Proof.
  intros Hrun.
  destruct (get_storage_outcomes name s (Some h) s' Hrun) as (_ & Hcases).
  destruct Hcases
    as [(_ & ? & _) | [(_ & _ & ? & _) | [(_ & _ & ? & _ & ? & _)
       | (Herr & Hacc & Hfind & b & w & cs & _ & _ & Hb)]]];
    try discriminate.
  destruct b; destruct Hb as (Hres & ->); [|discriminate].
  injection Hres as ->. simpl.
  pose proof Hacc as Hrule. unfold accepted in Hrule.
  apply andb_prop in Hrule as [Hrule _].
  rewrite regex_match_letters_3_to_24 in Hrule.
  split_and!; try reflexivity; try assumption.
  - apply accepted_not_shared, Hacc.
  - apply lookup_ge_None_2. reflexivity.
  - apply list_lookup_middle. reflexivity.
Qed.

(** X3. [get_shared_storage] returns a handle only from an enabled
    registry; the handle is either the one the lookup of "shared" found,
    and then nothing but the log changes, or the address of a new active
    object named "shared", bound to [storages_path / "shared"] and
    registered under the key "shared".  Either way the lookup of "shared"
    finds the returned handle afterwards. *)
Theorem get_shared_storage_handle_inversion s h s' :
  get_shared_storage s = Some (Some h, s') ->
  has_error s = false
  /\ find_in (storages s') "shared" = Some h
  /\ log s' = log s ++ [(Log.Info, handle s, Log.SharedGranted)]
  /\ ((find_in (storages s) "shared" = Some h
       /\ storages s' = storages s /\ objects s' = objects s
       /\ fs_calls s' = fs_calls s)
      \/ (find_in (storages s) "shared" = None
          /\ objects s !! h = None
          /\ objects s'
             = objects s
               ++ [Storage.make "shared" (storages_path s // "shared")]
          /\ storages s' = <["shared" := h]> (storages s))).
Proof.
  intros Hrun.
  destruct (get_shared_storage_success s h s' Hrun) as (_ & _ & Hfound).
  destruct (get_shared_storage_outcomes s (Some h) s' Hrun) as (_ & Hcases).
  destruct Hcases
    as [(_ & ? & _) | [(Herr & h' & Hfind & Hres & ->)
       | (Herr & Hfind & b & w & cs & _ & _ & Hb)]];
    try discriminate.
  - injection Hres as ->. simpl. split_and!; try reflexivity; try assumption.
    left. auto.
  - destruct b; destruct Hb as (Hres & ->); [|discriminate].
    injection Hres as ->. simpl.
    split_and!; try reflexivity; try assumption.
    right. split_and!; try reflexivity; try assumption.
    apply lookup_ge_None_2. reflexivity.
Qed.

(** *** What the map of storages always looks like *)

(** X4. In every reachable state, behind every entry of the map of
    storages there is a storage object that carries the key as its name
    and is bound to a directory whose last component is the key; two
    different keys never share an object. *)
Theorem entries_name_their_objects (world : FS) (rs : list request) s :
  perform_all rs (initial world) = Some (tt, s) ->
  (forall (k : string) h,
     storages s !! k = Some h ->
     exists o, objects s !! h = Some o
       /\ Storage.name o = k /\ last (Storage.path o) = Some k)
  /\ (forall (k1 k2 : string) h,
        storages s !! k1 = Some h -> storages s !! k2 = Some h -> k1 = k2).
Proof.
  intros Hreach.
  destruct (reachable_entries_bound world rs s Hreach) as (Hbound & _).
  split; [exact Hbound|].
  intros k1 k2 h H1 H2.
  destruct (Hbound k1 h H1) as (o1 & Ho1 & Hn1 & _).
  destruct (Hbound k2 h H2) as (o2 & Ho2 & Hn2 & _).
  congruence.
Qed.

(** X5. In every reachable state, every key of the map of storages is made
    of 3 to 24 ASCII letters, so no storage directory is named with a dot,
    a separator or a digit; and the only key equal to "shared" up to case
    is "shared" itself, in lower case. *)
Theorem keys_are_letter_names (world : FS) (rs : list request) s (k : string) :
  perform_all rs (initial world) = Some (tt, s) ->
  is_Some (storages s !! k) ->
  letters_3_to_24 k = true
  /\ (Text.equals_insensitive k "shared" = true -> k = "shared").
Proof.
  intros Hreach Hk.
  destruct (reachable_entries_bound world rs s Hreach) as (_ & Hkeys & _).
  destruct (Hkeys k Hk) as [Hacc | ->].
  - split.
    + unfold accepted in Hacc. apply andb_prop in Hacc as [Hrule _].
      rewrite regex_match_letters_3_to_24 in Hrule. exact Hrule.
    + intros Heq. rewrite (not_accepted_shared k Heq) in Hacc. discriminate.
  - split; reflexivity.
Qed.

(** X6. In every reachable state, the handle registered for the shared
    storage is active: no list of requests ever revokes it. *)
Theorem shared_storage_is_never_revoked
    (world : FS) (rs : list request) s (k : string) h :
  perform_all rs (initial world) = Some (tt, s) ->
  storages s !! k = Some h ->
  Text.equals_insensitive k "shared" = true ->
  is_active s h.
Proof.
  intros Hreach Hk Heq.
  destruct (reachable_entries_bound world rs s Hreach)
    as (_ & Hkeys & Hshared).
  destruct (Hkeys k) as [Hacc | ->]; [eauto| |apply Hshared, Hk].
  rewrite (not_accepted_shared k Heq) in Hacc. discriminate.
Qed.

(** *** What a request does to the filesystem and to the log *)

(** X7. One acquisition touches the filesystem at one path only, the
    directory of the storage asked for: it makes no call, or asks once
    whether [storages_path / name] exists, or asks that and then tries once
    to create it.  It makes no call at all when the registry is disabled or
    when the lookup finds the name; nor does [get_storage] for a name it
    does not accept. *)
Theorem acquisition_footprint r s s' :
  is_acquisition r = true ->
  perform r s = Some (tt, s') ->
  let name := match r with GetStorage p_name => p_name | _ => "shared" end in
  let p := storages_path s // name in
  ((fs_calls s' = fs_calls s /\ fs s' = fs s)
   \/ fs_calls s' = fs_calls s ++ [Fs.Exists p]
   \/ fs_calls s' = fs_calls s ++ [Fs.Exists p; Fs.CreateDirectory p])
  /\ (has_error s = true \/ is_Some (find_in (storages s) name)
      \/ (r = GetStorage name /\ accepted name = false) ->
      fs_calls s' = fs_calls s /\ fs s' = fs s).
Proof.
  destruct r as [? ?| |name|]; try discriminate; intros _ Hrun name' p;
    subst name' p; simpl in Hrun; unfold bind, ret in Hrun.
  - destruct (get_storage name s) as [[res s1]|] eqn:Hget; [|discriminate].
    injection Hrun as <-.
    destruct (get_storage_outcomes name s res s1 Hget) as (_ & Hcases).
    destruct Hcases
      as [(Herr & _ & ->) | [(Herr & Hacc & _ & ->)
         | [(Herr & Hacc & h & Hfind & _ & ->)
         | (Herr & Hacc & Hfind & b & w & cs & _ & Hcs & Hres)]]];
      try solve [simpl; split; [left; auto|auto]].
    assert (fs_calls s1 = fs_calls s ++ cs) as Hcalls.
    { destruct b; destruct Hres as (_ & ->); reflexivity. }
    rewrite Hcalls. split.
    + destruct Hcs as [-> | ->]; [right; left|right; right]; reflexivity.
    + intros [Hd | [[h Hf] | [_ Ha]]]; congruence.
  - destruct (get_shared_storage s) as [[res s1]|] eqn:Hget; [|discriminate].
    injection Hrun as <-.
    destruct (get_shared_storage_outcomes s res s1 Hget) as (_ & Hcases).
    destruct Hcases
      as [(Herr & _ & ->) | [(Herr & h & Hfind & _ & ->)
         | (Herr & Hfind & b & w & cs & _ & Hcs & Hres)]];
      try solve [simpl; split; [left; auto|auto]].
    assert (fs_calls s1 = fs_calls s ++ cs) as Hcalls.
    { destruct b; destruct Hres as (_ & ->); reflexivity. }
    rewrite Hcalls. split.
    + destruct Hcs as [-> | ->]; [right; left|right; right]; reflexivity.
    + intros [Hd | [[h Hf] | [Hr _]]]; congruence.
Qed.

(** X8. The log tells how [get_storage] ended.  A returned handle comes
    with exactly one line, at level Info, that access to the name was
    granted.  The null handle comes with one or two lines, all at level
    Error: one line when the registry is disabled, when the name was
    accessed several times, or when the storage could not be created; two
    lines, the second pointing to the documentation, when the name is not
    allowed.  The first line names the reason. *)
Theorem get_storage_log name s res s' :
  get_storage name s = Some (res, s') ->
  exists entries,
    log s' = log s ++ entries
    /\ match res with
       | Some _ => entries = [(Log.Info, handle s, Log.AccessGranted name)]
       | None =>
           Forall (fun e : log_entry => e.1.1 = Log.Error) entries
           /\ (exists msg rest,
                 entries = (Log.Error, handle s, msg) :: rest
                 /\ (msg = Log.DisabledForAllMods
                     \/ msg = Log.NameNotAllowed name
                     \/ msg = Log.SeveralTimes name
                     \/ msg = Log.FailedCreateStorage name))
           /\ 1 <= length entries <= 2
           /\ (entries = [(Log.Error, handle s, Log.DisabledForAllMods)]
               \/ entries = [(Log.Error, handle s, Log.NameNotAllowed name);
                             (Log.Error, handle s, Log.SeeDocumentation)]
               \/ entries = [(Log.Error, handle s, Log.SeveralTimes name)]
               \/ entries
                  = [(Log.Error, handle s, Log.FailedCreateStorage name)])
       end.
Proof.
  intros Hrun.
  destruct (get_storage_outcomes name s res s' Hrun) as (_ & Hcases).
  destruct Hcases
    as [(_ & -> & ->) | [(_ & _ & -> & ->) | [(_ & _ & h & _ & -> & ->)
       | (_ & _ & _ & b & w & cs & _ & _ & Hres)]]].
  - eexists. split; [reflexivity|].
    split_and!; [repeat constructor|eauto 10|simpl; lia..|auto].
  - exists [(Log.Error, handle s, Log.NameNotAllowed name);
            (Log.Error, handle s, Log.SeeDocumentation)].
    split; [simpl; rewrite <- app_assoc; reflexivity|].
    split_and!; [repeat constructor|eauto 10|simpl; lia..|auto].
  - eexists. split; [reflexivity|].
    split_and!; [repeat constructor|eauto 10|simpl; lia..|auto].
  - destruct b; destruct Hres as (-> & ->).
    + eexists. split; reflexivity.
    + eexists. split; [reflexivity|].
      split_and!; [repeat constructor|eauto 10|simpl; lia..|auto 10].
Qed.

(** *** What no request undoes *)

Lemma perform_objects_evolve r s s' :
  perform r s = Some (tt, s') -> objects_evolve s s'.
Proof.
  intros Hrun. destruct r as [p_handle [lg|]| |name|].
  - simpl in Hrun.
    destruct (load_frame p_handle lg s)
      as (s1 & cs & Hload & _ & _ & _ & _ & _ & Hob & _).
    rewrite Hload in Hrun. injection Hrun as <-.
    apply objects_evolve_refl, Hob.
  - simpl in Hrun. rewrite load_null_logger in Hrun. discriminate.
  - simpl in Hrun.
    destruct (logger s) as [lg|] eqn:Hlog;
      [|rewrite unload_null_logger in Hrun by exact Hlog; discriminate].
    rewrite unload_runs in Hrun by (rewrite Hlog; eauto).
    injection Hrun as <-. apply objects_evolve_refl. reflexivity.
  - destruct (acquisition_summary (GetStorage name) s s' eq_refl Hrun)
      as (_ & _ & _ & Hev & _). exact Hev.
  - destruct (acquisition_summary GetSharedStorage s s' eq_refl Hrun)
      as (_ & _ & _ & Hev & _). exact Hev.
Qed.

(** X9. No request ever destroys a storage object, renames it, binds it to
    another directory, or makes a revoked one active again: through any
    list of requests, [load] and [unload] included, every object stays at
    its address with its name and path, and once revoked stays revoked. *)
Theorem revocation_is_permanent (rs : list request) s s' h o :
  perform_all rs s = Some (tt, s') ->
  objects s !! h = Some o ->
  exists o',
    objects s' !! h = Some o'
    /\ Storage.name o' = Storage.name o
    /\ Storage.path o' = Storage.path o
    /\ (Storage.revoked o = true -> Storage.revoked o' = true).
Proof.
  revert s o. induction rs as [|r rs IH]; intros s o Hrun Ho; simpl in Hrun.
  - injection Hrun as <-. exists o. auto.
  - unfold bind in Hrun.
    destruct (perform r s) as [[[] s1]|] eqn:Hstep; [|discriminate].
    destruct (perform_objects_evolve r s s1 Hstep h o Ho)
      as (o1 & Ho1 & Hn1 & Hp1 & Hr1).
    destruct (IH s1 o1 Hrun Ho1) as (o' & Ho' & Hn' & Hp' & Hr').
    exists o'. split_and!; [exact Ho'|congruence|congruence|auto].
Qed.

(** X10. Acquisitions do not manage the registry: through any list of
    [get_storage] and [get_shared_storage] calls, the plugin handle, the
    logger, the disabled flag and both paths stay as they are, no entry of
    the map is removed or bound to another handle, and no call to the
    filesystem deletes anything. *)
Theorem acquisitions_keep_the_registry (rs : list request) s s' :
  forallb is_acquisition rs = true ->
  perform_all rs s = Some (tt, s') ->
  handle s' = handle s /\ logger s' = logger s
  /\ has_error s' = has_error s
  /\ game_path s' = game_path s /\ storages_path s' = storages_path s
  /\ (forall (k : string) h,
        storages s !! k = Some h -> storages s' !! k = Some h)
  /\ exists cs,
       fs_calls s' = fs_calls s ++ cs
       /\ forall c q, c ∈ cs -> Fs.deletes c q = false.
Proof.
  intros Hrs Hrun.
  destruct (acquisitions_summary rs s s' Hrs Hrun)
    as ((Hh & Hl & He & Hg & Hp) & _ & Hkeep & _ & cs & Hcs & Hdel).
  split_and!; try assumption. exists cs. split; assumption.
Qed.

(** *** A disabled registry with a logger *)

(** X11. A registry disabled by a failed [load] is inert: through any list
    of [get_storage] and [get_shared_storage] calls it stays disabled, every
    call returns, and nothing changes but the log, which receives exactly
    one line per call, at level Error; the filesystem is not called. *)
Theorem disabled_registry_is_inert (rs : list request) s :
  forallb is_acquisition rs = true ->
  has_error s = true -> is_Some (logger s) ->
  exists s' entries,
    perform_all rs s = Some (tt, s')
    /\ has_error s' = true
    /\ storages s' = storages s /\ objects s' = objects s
    /\ fs s' = fs s /\ fs_calls s' = fs_calls s
    /\ log s' = log s ++ entries
    /\ length entries = length rs
    /\ Forall (fun e : log_entry => e.1.1 = Log.Error) entries.
Proof.
  revert s. induction rs as [|r rs IH]; intros s Hrs Herr Hlog; simpl in *.
  - exists s, []. unfold ret. rewrite app_nil_r. auto 10.
  - apply andb_prop in Hrs as [Hr Hrs]. unfold bind.
    assert (exists msg,
              perform r s
              = Some (tt, add_log (Log.Error, handle s, msg) s)) as (msg & Hstep).
    { destruct r as [? ?| |name|]; try discriminate; simpl; unfold bind, ret.
      - rewrite get_storage_disabled by assumption. eauto.
      - rewrite get_shared_storage_disabled by assumption. eauto. }
    rewrite Hstep.
    destruct (IH (add_log (Log.Error, handle s, msg) s) Hrs Herr Hlog)
      as (s' & entries & Hrun & He & Hst & Hob & Hfs & Hcalls & Hl & Hlen & Hall).
    exists s', ((Log.Error, handle s, msg) :: entries).
    split; [exact Hrun|]. simpl in *.
    rewrite <- app_assoc in Hl. simpl in Hl.
    split_and!; try assumption; [congruence|].
    constructor; [reflexivity|exact Hall].
Qed.

(** *** Names and their casing *)

(** X12. The test of a name does not look at its casing: two names equal up
    to case are both made of 3 to 24 ASCII letters or neither is, and
    [get_storage] accepts both or refuses both. *)
Theorem name_rule_ignores_case (a b : string) :
  Text.equals_insensitive a b = true ->
  letters_3_to_24 a = letters_3_to_24 b /\ accepted a = accepted b.
Proof.
  intros Hab. split; [|apply accepted_congr, Hab].
  rewrite <- !regex_match_letters_3_to_24. apply regex_match_congr, Hab.
Qed.

(** *** Handles across [unload] *)

(** X13. [unload] forgets the handles it issued without revoking them.  A
    handle that was registered and active stays active through [unload]
    and a new [load]; a [get_storage] for its name that then succeeds
    returns another handle, so that two active objects carry the name. *)
Theorem handle_outlives_unload
    (world : FS) (rs : list request) s name h p_handle (lg : Logger)
    s1 s2 h' s3 :
  perform_all rs (initial world) = Some (tt, s) ->
  storages s !! name = Some h -> is_active s h ->
  unload s = Some (tt, s1) ->
  load p_handle (Some lg) s1 = Some (tt, s2) ->
  get_storage name s2 = Some (Some h', s3) ->
  storages s1 = ∅
  /\ h' <> h
  /\ is_active s3 h /\ is_active s3 h'
  /\ Storage.name <$> objects s3 !! h = Some name
  /\ Storage.name <$> objects s3 !! h' = Some name.
Proof.
  intros Hreach Hk Hact Hun Hload Hget.
  destruct (reachable_entries_bound world rs s Hreach) as (Hbound & _).
  destruct (Hbound name h Hk) as (o & Ho & Hn & _).
  destruct (logger s) as [lg0|] eqn:Hlog;
    [|rewrite unload_null_logger in Hun by exact Hlog; discriminate].
  rewrite unload_runs in Hun by (rewrite Hlog; eauto).
  injection Hun as <-.
  destruct (load_frame p_handle lg
              (set_logger None (set_handle None
                 (add_log (Log.Info, handle s, Log.HasBeenTerminated)
                    (set_has_error true (set_storages ∅
                       (set_fs (Fs.remove_all (old_path_of (game_path s))
                                  (fs s)).1
                          (Fs.RemoveAll (old_path_of (game_path s))) s)))))))
    as (s2' & cs & Hload' & _ & _ & _ & _ & _ & Hob2 & _).
  rewrite Hload' in Hload. injection Hload as <-. simpl in Hob2.
  destruct (get_storage_outcomes name s2' (Some h') s3 Hget) as (_ & Hcases).
  destruct Hcases
    as [(_ & ? & _) | [(_ & _ & ? & _) | [(_ & _ & ? & _ & ? & _)
       | (_ & _ & _ & b & w & cs' & _ & _ & Hb)]]];
    try discriminate.
  destruct b; destruct Hb as (Hres & ->); [|discriminate].
  injection Hres as ->. simpl. rewrite Hob2.
  assert ((objects s ++ [Storage.make name (storages_path s2' // name)]) !! h
          = Some o) as Ho3 by (apply lookup_app_l_Some, Ho).
  unfold is_active in *. simpl. rewrite Ho3.
  rewrite list_lookup_middle by reflexivity. rewrite Ho in Hact. simpl in *.
  split_and!; try reflexivity; try assumption; [|congruence].
  intros Heq. apply lookup_lt_Some in Ho. lia.
Qed.

(** *** The two helpers *)

(** X14. [request_directory] asks once whether the path exists.  On an
    error it gives up without trying to create anything; when the path
    exists it reports success and creates nothing; otherwise it tries once
    to create the directory and reports success exactly when the creation
    returned true without an error.  It touches nothing of the registry,
    writes no log, and never needs the logger. *)
Theorem request_directory_result (p : path) s :
  exists b s',
    request_directory p s = Some (b, s')
    /\ handle s' = handle s /\ logger s' = logger s
    /\ game_path s' = game_path s /\ storages_path s' = storages_path s
    /\ storages s' = storages s /\ has_error s' = has_error s
    /\ objects s' = objects s /\ log s' = log s
    /\ match Fs.exists_ p (fs s) with
       | (w, (_, Some _)) =>
           b = false /\ fs s' = w /\ fs_calls s' = fs_calls s ++ [Fs.Exists p]
       | (w, (true, None)) =>
           b = true /\ fs s' = w /\ fs_calls s' = fs_calls s ++ [Fs.Exists p]
       | (w, (false, None)) =>
           b = (Fs.create_directory p w).2.1
               && negb (Fs.is_set (Fs.create_directory p w).2.2)
           /\ fs s' = (Fs.create_directory p w).1
           /\ fs_calls s' = fs_calls s ++ [Fs.Exists p; Fs.CreateDirectory p]
       end.
Proof.
  unfold request_directory, bind, fs_exists, fs_create_directory, ret.
  destruct (Fs.exists_ p (fs s)) as [w [present [e|]]]; simpl.
  { eexists _, _. split; [reflexivity|]. simpl.
    destruct present; auto 12. }
  destruct present; simpl.
  { eexists _, _. split; [reflexivity|]. simpl. auto 12. }
  destruct (Fs.create_directory p w) as [w' [created e']]; simpl.
  destruct created, e' as [e'|]; simpl;
    eexists _, _; (split; [reflexivity|]); simpl;
    rewrite <- app_assoc; auto 12.
Qed.

(** X15. [find_storage] returns a handle only if the map holds it under a
    key equal to the name up to case, returns the null handle exactly when
    no key equals the name up to case, and gives the same answer for all
    casings of a name; it changes nothing.  Where the keys are distinct up
    to case, it returns the handle of the one key that matches. *)
Theorem find_storage_is_a_case_blind_lookup name s :
  find_storage name s = Some (find_in (storages s) name, s)
  /\ (forall h, find_in (storages s) name = Some h ->
        exists k : string,
          storages s !! k = Some h /\ Text.equals_insensitive k name = true)
  /\ (find_in (storages s) name = None <->
      forall k : string,
        is_Some (storages s !! k) -> Text.equals_insensitive k name = false)
  /\ (forall name' : string,
        Text.equals_insensitive name' name = true ->
        find_in (storages s) name' = find_in (storages s) name)
  /\ (case_distinct (storages s) ->
      forall (k : string) h,
        storages s !! k = Some h -> Text.equals_insensitive k name = true ->
        find_in (storages s) name = Some h).
Proof.
  split; [reflexivity|]. split; [apply find_in_Some|].
  split; [|split; [intros name' Heq; apply find_in_congr, Heq|]].
  - split; [apply find_in_None|].
    intros Hno. destruct (find_in (storages s) name) as [h|] eqn:Hfind;
      [|reflexivity].
    destruct (find_in_Some _ _ _ Hfind) as (k & Hk & Heq).
    rewrite (Hno k) in Heq by eauto. discriminate.
  - intros Hm k h Hk Heq. eapply find_in_unique; eassumption.
Qed.

(** *** What [load] reports *)

Lemma migrate_directory_log (old_path new_path : path) s :
  is_Some (logger s) ->
  exists b s',
    migrate_directory old_path new_path s = Some (b, s')
    /\ handle s' = handle s /\ logger s' = logger s
    /\ (log s' = log s
        \/ (b = false
            /\ exists e,
                 log s' = log s ++ [(Log.Error, handle s, Log.CouldNotMigrate e)])).
Proof.
  intros [lg Hlog].
  unfold migrate_directory, bind, fs_exists, fs_copy, ret, logger_write.
  destruct (Fs.exists_ old_path (fs s)) as [w2 [has_old [e|]]]; simpl.
  { eexists _, _. split; [reflexivity|]. simpl. auto. }
  destruct has_old; simpl.
  2: { eexists _, _. split; [reflexivity|]. simpl. auto. }
  destruct (Fs.copy old_path new_path _ w2) as [w3 [e3|]]; simpl.
  - rewrite Hlog. eexists _, _. split; [reflexivity|]. simpl. eauto 10.
  - eexists _, _. split; [reflexivity|]. simpl. auto.
Qed.

(** X16. The log tells how [load] ended.  Given a logger, [load] returns
    and leaves the registry enabled exactly when the one line it wrote is,
    at level Info, that the registry has been enabled.  Otherwise it wrote
    either two Error lines, that the storages directory could not be
    created and that the registry has been disabled, or two Warn lines,
    that the migration failed and that the content has to be moved by
    hand, after one Error line with the cause when it was the copy that
    failed.  Every line carries the plugin handle [load] was given. *)
Theorem load_log s p_handle (lg : Logger) :
  let game := parent_path (parent_path (Fs.absolute ["."] (fs s))) in
  let root := game // "r6" // "storages" in
  let old_path := old_path_of game in
  let warned := [(Log.Warn, p_handle, Log.FailedMigrate old_path root);
                 (Log.Warn, p_handle, Log.MoveContentYourself)] in
  exists s' entries,
    load p_handle (Some lg) s = Some (tt, s')
    /\ log s' = log s ++ entries
    /\ if has_error s' then
         entries = [(Log.Error, p_handle, Log.FailedCreateDirectoryAt root);
                    (Log.Error, p_handle, Log.HasBeenDisabled)]
         \/ entries = warned
         \/ exists e,
              entries = (Log.Error, p_handle, Log.CouldNotMigrate e) :: warned
       else
         entries = [(Log.Info, p_handle, Log.HasBeenEnabled)].
Proof.
  intros game root old_path warned.
  load_prepare s p_handle (Some lg) s0.
  assert (game_path s0 = game) as Hgame by assumption.
  assert (storages_path s0 = root) as Hroot
    by (unfold root; rewrite <- Hgame; assumption).
  rewrite Hroot.
  destruct (request_directory_runs root s0) as (ensured & w1 & cs1 & -> & _).
  cbv beta iota.
  set (s1 := with_world w1 cs1 s0).
  assert (handle s1 = p_handle /\ logger s1 = Some lg
          /\ game_path s1 = game /\ log s1 = log s)
    as (Hh1 & Hl1 & Hg1 & Hlg1).
  { subst s1. simpl. split_and!; congruence. }
  clearbody s1.
  assert (forall s2, logger s2 = logger s1 -> is_Some (logger s2)) as Hlogger.
  { intros s2 ->. rewrite Hl1. eauto. }
  destruct ensured; cbn [negb]; cbv beta.
  2: { rewrite !logger_write_runs by (apply Hlogger; reflexivity).
       eexists _, _. split; [reflexivity|]. simpl.
       rewrite <- app_assoc, Hlg1, Hh1. split; [reflexivity|]. left. reflexivity. }
  rewrite Hg1. fold old_path.
  destruct (migrate_directory_log old_path root s1)
    as (b & s2 & -> & Hh2 & Hl2 & Hlog2); [apply Hlogger; reflexivity|].
  cbv beta iota.
  destruct b; cbn [negb];
    rewrite !logger_write_runs by (apply Hlogger; simpl; assumption).
  - destruct Hlog2 as [Hlg2 | (? & _)]; [|discriminate].
    eexists _, _. split; [reflexivity|]. simpl.
    rewrite Hlg2, Hlg1, Hh2, Hh1. split; reflexivity.
  - destruct Hlog2 as [Hlg2 | (_ & e & Hlg2)];
      eexists _, _; (split; [reflexivity|]); simpl;
      rewrite Hlg2, ?Hlg1, Hh2, Hh1, <- ?app_assoc; simpl;
      (split; [reflexivity|]).
    + right. left. reflexivity.
    + right. right. exists e. reflexivity.
Qed.

(** *** The shared directory that cannot be created *)

(** X17. What holds for [get_storage] when the directory cannot be created
    holds for [get_shared_storage]: in an enabled registry where the
    lookup does not find "shared", a failing [request_directory] makes the
    call return the null handle and report once that the shared storage
    could not be created; the map and the objects are as they were, and
    the next call returns a handle as soon as [request_directory]
    succeeds. *)
Theorem get_shared_storage_provision_failure s :
  has_error s = false -> is_Some (logger s) ->
  find_in (storages s) "shared" = None ->
  fst <$> request_directory (storages_path s // "shared") s = Some false ->
  exists s1,
    get_shared_storage s = Some (None, s1)
    /\ log s1 = log s ++ [(Log.Error, handle s, Log.FailedCreateShared)]
    /\ storages s1 = storages s /\ objects s1 = objects s
    /\ (fst <$> request_directory (storages_path s1 // "shared") s1
        = Some true ->
        exists h s2,
          get_shared_storage s1 = Some (Some h, s2)
          /\ storages s2 !! "shared" = Some h /\ is_active s2 h).
Proof.
  intros Herr Hlog Hfind Hdir.
  destruct (request_directory_runs (storages_path s // "shared") s)
    as (b & w & cs & Hreq & Hcs).
  rewrite Hreq in Hdir. injection Hdir as ->.
  rewrite (get_shared_storage_not_provisioned s w cs) by assumption.
  eexists. split; [reflexivity|].
  match goal with |- context [get_shared_storage ?x] => set (s1 := x) end.
  simpl.
  split; [reflexivity|]. split; [reflexivity|]. split; [reflexivity|].
  intros Hdir.
  destruct (request_directory_runs (storages_path s // "shared") s1)
    as (b & w' & cs' & Hreq' & _).
  change (storages_path s1) with (storages_path s) in Hdir.
  rewrite Hreq' in Hdir. injection Hdir as ->.
  rewrite (get_shared_storage_granted s1 w' cs') by assumption.
  eexists _, _. split; [reflexivity|]. simpl.
  split; [apply lookup_insert_eq|].
  unfold is_active. simpl.
  rewrite list_lookup_middle by reflexivity. reflexivity.
Qed.

End WithFilesystem.

(** *** Instances on the small filesystem *)

Lemma get_storage_handle_inversion_witness :
  exists s',
    get_storage "mymod" Sim.enabled = Some (Some 0, s')
    /\ letters_3_to_24 "mymod" = true
    /\ objects s' !! 0
       = Some (Storage.make "mymod" (storages_path Sim.enabled // "mymod"))
    /\ storages s' = <["mymod" := 0]> (storages Sim.enabled).
Proof.
  destruct (get_storage "mymod" Sim.enabled) as [[[h|] s']|] eqn:Hrun;
    try (vm_compute in Hrun; discriminate).
  assert (h = 0) as -> by (vm_compute in Hrun; congruence).
  destruct (get_storage_handle_inversion "mymod" Sim.enabled 0 s' Hrun)
    as (_ & Hrule & _ & _ & _ & _ & Hobj & Hst & _).
  exists s'. auto.
Defined.

Lemma get_shared_storage_handle_inversion_witness :
  exists s',
    get_shared_storage Sim.enabled = Some (Some 0, s')
    /\ find_in (storages s') "shared" = Some 0.
Proof.
  destruct (get_shared_storage Sim.enabled) as [[[h|] s']|] eqn:Hrun;
    try (vm_compute in Hrun; discriminate).
  assert (h = 0) as -> by (vm_compute in Hrun; congruence).
  destruct (get_shared_storage_handle_inversion Sim.enabled 0 s' Hrun)
    as (_ & Hfind & _).
  exists s'. auto.
Defined.

Lemma entries_name_their_objects_witness :
  exists o,
    objects Sim.mymod_acquired !! 0 = Some o
    /\ Storage.name o = "mymod" /\ last (Storage.path o) = Some "mymod".
Proof.
  destruct (entries_name_their_objects Sim.fresh_disk
              [Load Sim.plugin Sim.sink; GetStorage "mymod"]
              Sim.mymod_acquired)
    as (Hbound & _); [vm_compute; reflexivity|].
  apply (Hbound "mymod" 0). reflexivity.
Defined.

Lemma keys_are_letter_names_witness :
  letters_3_to_24 "mymod" = true
  /\ (Text.equals_insensitive "mymod" "shared" = true -> "mymod" = "shared").
Proof.
  apply (keys_are_letter_names Sim.fresh_disk
           [Load Sim.plugin Sim.sink; GetStorage "mymod"]
           Sim.mymod_acquired "mymod").
  - vm_compute. reflexivity.
  - eexists. reflexivity.
Defined.

Lemma shared_storage_is_never_revoked_witness :
  is_active Sim.shared_acquired 0.
Proof.
  apply (shared_storage_is_never_revoked Sim.fresh_disk
           [Load Sim.plugin Sim.sink; GetSharedStorage]
           Sim.shared_acquired "shared" 0).
  - vm_compute. reflexivity.
  - reflexivity.
  - reflexivity.
Defined.

Lemma acquisition_footprint_witness :
  exists s',
    perform (GetStorage "mymod") Sim.enabled = Some (tt, s')
    /\ fs_calls s'
       = fs_calls Sim.enabled
         ++ [Fs.Exists (storages_path Sim.enabled // "mymod");
             Fs.CreateDirectory (storages_path Sim.enabled // "mymod")].
Proof.
  destruct (perform (GetStorage "mymod") Sim.enabled) as [[[] s']|] eqn:Hrun;
    [|vm_compute in Hrun; discriminate].
  destruct (acquisition_footprint (GetStorage "mymod") Sim.enabled s'
              eq_refl Hrun) as (Hcalls & _).
  exists s'. split; [reflexivity|].
  destruct Hcalls as [[Hsame _] | [Hone | Htwo]]; [exfalso..|exact Htwo];
    vm_compute in Hrun; injection Hrun as <-; discriminate.
Defined.

Lemma get_storage_log_witness :
  exists s' entries,
    get_storage "a1b" Sim.enabled = Some (None, s')
    /\ log s' = log Sim.enabled ++ entries
    /\ Forall (fun e : log_entry => e.1.1 = Log.Error) entries.
Proof.
  destruct (get_storage "a1b" Sim.enabled) as [[[h|] s']|] eqn:Hrun;
    try (vm_compute in Hrun; discriminate).
  destruct (get_storage_log "a1b" Sim.enabled None s' Hrun)
    as (entries & Hlog & Hall & _).
  exists s', entries. auto.
Defined.

Lemma revocation_is_permanent_witness :
  exists s' o',
    perform_all [GetStorage "MyMod"; GetSharedStorage; Unload]
      Sim.mymod_acquired = Some (tt, s')
    /\ objects s' !! 0 = Some o'
    /\ Storage.name o' = "mymod".
Proof.
  destruct (perform_all [GetStorage "MyMod"; GetSharedStorage; Unload]
              Sim.mymod_acquired) as [[[] s']|] eqn:Hrun;
    [|vm_compute in Hrun; discriminate].
  destruct (revocation_is_permanent
              [GetStorage "MyMod"; GetSharedStorage; Unload]
              Sim.mymod_acquired s' 0
              (Storage.make "mymod" (storages_path Sim.enabled // "mymod"))
              Hrun eq_refl)
    as (o' & Ho' & Hn & _).
  exists s', o'. auto.
Defined.

Lemma acquisitions_keep_the_registry_witness :
  exists s',
    perform_all [GetStorage "MyMod"; GetSharedStorage; GetStorage "other"]
      Sim.mymod_acquired = Some (tt, s')
    /\ has_error s' = false
    /\ storages s' !! "mymod" = Some 0.
Proof.
  destruct (perform_all
              [GetStorage "MyMod"; GetSharedStorage; GetStorage "other"]
              Sim.mymod_acquired) as [[[] s']|] eqn:Hrun;
    [|vm_compute in Hrun; discriminate].
  destruct (acquisitions_keep_the_registry
              [GetStorage "MyMod"; GetSharedStorage; GetStorage "other"]
              Sim.mymod_acquired s' eq_refl Hrun)
    as (_ & _ & Herr & _ & _ & Hkeep & _).
  exists s'. split; [reflexivity|]. split; [exact Herr|].
  apply Hkeep. reflexivity.
Defined.

Lemma disabled_registry_is_inert_witness :
  exists s' entries,
    perform_all [GetStorage "mymod"; GetSharedStorage] Sim.blocked
    = Some (tt, s')
    /\ storages s' = storages Sim.blocked
    /\ fs_calls s' = fs_calls Sim.blocked
    /\ log s' = log Sim.blocked ++ entries
    /\ length entries = 2.
Proof.
  destruct (disabled_registry_is_inert [GetStorage "mymod"; GetSharedStorage]
              Sim.blocked)
    as (s' & entries & Hrun & _ & Hst & _ & _ & Hcalls & Hlog & Hlen & _);
    [reflexivity | reflexivity | eexists; reflexivity |].
  exists s', entries. auto 10.
Defined.

Lemma name_rule_ignores_case_witness :
  letters_3_to_24 "MyMod" = letters_3_to_24 "mymod"
  /\ accepted "MyMod" = accepted "mymod".
Proof. apply (name_rule_ignores_case "MyMod" "mymod"). reflexivity. Defined.

Lemma handle_outlives_unload_witness :
  exists s3 : State Sim.disk,
    perform_all [Unload; Load Sim.plugin Sim.sink] Sim.mymod_acquired
    <> None
    /\ is_active s3 0 /\ is_active s3 1
    /\ Storage.name <$> objects s3 !! 0 = Some "mymod"
    /\ Storage.name <$> objects s3 !! 1 = Some "mymod".
Proof.
  destruct (unload Sim.mymod_acquired) as [[[] s1]|] eqn:Hun;
    [|vm_compute in Hun; discriminate].
  destruct (load Sim.plugin Sim.sink s1) as [[[] s2]|] eqn:Hload;
    [|vm_compute in Hun; injection Hun as <-;
      vm_compute in Hload; discriminate].
  destruct (get_storage "mymod" s2) as [[[h'|] s3]|] eqn:Hget;
    try (vm_compute in Hun; injection Hun as <-;
         vm_compute in Hload; injection Hload as <-;
         vm_compute in Hget; discriminate).
  assert (h' = 1) as ->.
  { vm_compute in Hun. injection Hun as <-.
    vm_compute in Hload. injection Hload as <-.
    vm_compute in Hget. congruence. }
  destruct (handle_outlives_unload Sim.fresh_disk
              [Load Sim.plugin Sim.sink; GetStorage "mymod"]
              Sim.mymod_acquired "mymod" 0 Sim.plugin 2 s1 s2 1 s3)
    as (_ & _ & Ha & Ha' & Hn & Hn');
    [vm_compute; reflexivity | reflexivity | reflexivity
    | exact Hun | exact Hload | exact Hget |].
  exists s3. split; [|auto].
  simpl. unfold bind. rewrite Hun, Hload. discriminate.
Defined.

Lemma get_shared_storage_provision_failure_witness :
  exists s1 h s2,
    get_shared_storage Sim.shared_flaky = Some (None, s1)
    /\ storages s1 = storages Sim.shared_flaky
    /\ get_shared_storage s1 = Some (Some h, s2)
    /\ storages s2 !! "shared" = Some h.
Proof.
  destruct (get_shared_storage_provision_failure Sim.shared_flaky)
    as (s1 & Hget & _ & Hst & _ & Hretry);
    [reflexivity | eexists; reflexivity
    | vm_compute; reflexivity | vm_compute; reflexivity |].
  destruct Hretry as (h & s2 & Hget' & Hk & _).
  { injection Hget as <-. vm_compute. reflexivity. }
  exists s1, h, s2. auto.
Defined.

End Behaviour.
